(** * Seeded-defect fixtures of the code reviewer, embedded and checked

    The repository is a set of independent C++ translation units, each a
    few small classes carrying a deliberately planted defect.  Every source
    file that a property below talks about gets a module of its own, named
    after the file; classes become records, member functions become
    functions that take the object and return the value together with the
    object where the member mutates it.

    Conventions of the embedding:
    - [int] is a 32-bit two's complement integer, [size_t] a 64-bit
      unsigned one; both are carried as [Z] and every arithmetic result is
      passed through [int_wrap] or [size_wrap].  For [int] this is the
      result the usual targets compute where the language leaves overflow
      undefined; the properties say where they need a result to fit.
    - [double] is the IEEE binary64 type of the kernel ([PrimFloat]).
    - an element access outside a buffer, and an integer or guarded
      floating division by zero, end the run with a [fault];
    - [new] and [resize] always get their memory;
    - a member function that reads no data member takes no object;
    - index loops run on fuel, and the results say how much fuel is enough. *)

From Stdlib Require Import ZArith Floats Lia.
From stdpp Require Import base option list gmap strings pretty.

Local Open Scope Z_scope.

(** ** Machine integers *)

Module Machine.

Definition INT_MIN : Z := - 2 ^ 31.
Definition INT_MAX : Z := 2 ^ 31 - 1.
Definition SIZE_MAX : Z := 2 ^ 64 - 1.

(** Reduction of a mathematical integer to the value an [int] holds. *)
Definition int_wrap (z : Z) : Z := (z + 2 ^ 31) `mod` 2 ^ 32 - 2 ^ 31.

(** Reduction of a mathematical integer to the value a [size_t] holds. *)
Definition size_wrap (z : Z) : Z := z `mod` 2 ^ 64.

Definition int_add (a b : Z) : Z := int_wrap (a + b).
Definition int_mul (a b : Z) : Z := int_wrap (a * b).

(** [i++] on an [int] and on a [size_t]. *)
Definition int_succ (i : Z) : Z := int_wrap (i + 1).
Definition size_succ (i : Z) : Z := size_wrap (i + 1).

(** [static_cast<int>] of a [size_t]. *)
Definition int_of_size (z : Z) : Z := int_wrap z.

(** Implicit conversion of an [int] to [size_t]. *)
Definition size_of_int (z : Z) : Z := size_wrap z.

(** Conversion of an integer to [double], for magnitudes below [2^63]. *)
Definition double_of_Z (z : Z) : float :=
  if z <? 0 then PrimFloat.opp (PrimFloat.of_uint63 (Uint63.of_Z (- z)))
  else PrimFloat.of_uint63 (Uint63.of_Z z).

(** [std::max] on doubles: [(a < b) ? b : a]. *)
Definition double_max (a b : float) : float :=
  if PrimFloat.ltb a b then b else a.

End Machine.

Export Machine.

(** ** Runs that may fault *)

(** What stops a run: an access to element [idx] of the buffer the source
    calls [buf] when [idx] is not below its element count, or a division
    whose divisor is zero. *)
Inductive fault : Type :=
  | OutOfBounds (buf : string) (idx : Z)
  | DivByZero.

Inductive outcome (A : Type) : Type :=
  | Ok (a : A)
  | Fault (f : fault)
  | OutOfFuel.

Arguments Ok {A} a.
Arguments Fault {A} f.
Arguments OutOfFuel {A}.

Global Instance outcome_ret : MRet outcome := λ A a, Ok a.
Global Instance outcome_bind : MBind outcome := λ A B k m,
  match m with
  | Ok a => k a
  | Fault f => Fault f
  | OutOfFuel => OutOfFuel
  end.

(** ** Vectors and arrays *)

Definition vec_size {A} (v : list A) : Z := Z.of_nat (length v).

(** [v[i]] read. *)
Definition vec_get {A} (buf : string) (v : list A) (i : Z) : outcome A :=
  if bool_decide (0 ≤ i < vec_size v) then
    match v !! Z.to_nat i with
    | Some x => Ok x
    | None => Fault (OutOfBounds buf i)
    end
  else Fault (OutOfBounds buf i).

(** [v[i] = x] write. *)
Definition vec_set {A} (buf : string) (v : list A) (i : Z) (x : A) : outcome (list A) :=
  if bool_decide (0 ≤ i < vec_size v) then Ok (<[Z.to_nat i := x]> v)
  else Fault (OutOfBounds buf i).

(** ** Index loops

    [for (T i = i0; cond(i); i++) body] with the state the body updates. The
    increment is that of the counter's type ([int_succ] or [size_succ]). *)
Fixpoint for_loop {St} (fuel : nat) (cond : Z → St → bool) (incr : Z → Z)
    (body : Z → St → outcome St) (i : Z) (s : St) : outcome St :=
  match fuel with
  | O => OutOfFuel
  | S fuel' =>
      if cond i s then s' ← body i s; for_loop fuel' cond incr body (incr i) s'
      else Ok s
  end.

(** Range-for over a container. *)
Fixpoint for_each {A St} (body : A → St → outcome St) (l : list A) (s : St) : outcome St :=
  match l with
  | [] => Ok s
  | x :: l' => s' ← body x s; for_each body l' s'
  end.

Definition endl : string := String (Ascii.ascii_of_nat 10) EmptyString.

(** Integer division [a / b] on [int]: truncation toward zero. *)
Definition int_div (a b : Z) : outcome Z :=
  if b =? 0 then Fault DivByZero else Ok (int_wrap (Z.quot a b)).

(** [x / n] with [x] a double and [n] an integer converted to double, the
    only form of floating division in these files.  The division is guarded:
    a zero divisor is a fault and not an infinity or a NaN. *)
Definition double_div (x : float) (n : Z) : outcome float :=
  if n =? 0 then Fault DivByZero else Ok (PrimFloat.div x (double_of_Z n)).

(** [std::numeric_limits<double>::max()] and [lowest()]. *)
Definition DBL_MAX : float := 0x1.fffffffffffffp+1023%float.
Definition DBL_LOWEST : float := PrimFloat.opp DBL_MAX.

(** ** More machine operations *)

(** Reduction of a mathematical integer to the value a [uint32_t] holds. *)
Definition uint32_wrap (z : Z) : Z := z `mod` 2 ^ 32.

Definition int_sub (a b : Z) : Z := int_wrap (a - b).

(** [a % b] on [int]: the remainder has the sign of [a]. *)
Definition int_rem (a b : Z) : outcome Z :=
  if b =? 0 then Fault DivByZero else Ok (Z.rem a b).

(** [a % b] on [size_t]. *)
Definition size_rem (a b : Z) : outcome Z :=
  if b =? 0 then Fault DivByZero else Ok (a `mod` b).

(** [a << k] on [int].  The source language leaves a count outside
    [[0, 32)] undefined; the count is taken modulo 32, as the usual targets
    do, and the properties keep to counts inside the range. *)
Definition int_shl (a k : Z) : Z := int_wrap (Z.shiftl a (k `mod` 32)).

(** ** The C streams that [readFile] uses

    What the reader sees of the file system: the contents of the files
    that [fopen] can open for reading, and the number of streams that are
    open.  A stream is what is left to read of its file. *)
Record FileSystem : Type := mkFileSystem {
  fs_files : gmap string string;
  fs_open : nat;
}.

(** [fopen(filename, "r")]: the stream, or null. *)
Definition fopen (filename : string) (fs : FileSystem) : option string * FileSystem :=
  match fs_files fs !! filename with
  | Some content => (Some content, {| fs_files := fs_files fs; fs_open := S (fs_open fs) |})
  | None => (None, fs)
  end.

(** [fread(buffer, 1, count, fp)] on a stream at its start: the bytes
    put in the buffer, whose number is the value returned. *)
Definition fread (count : nat) (fp : string) : string := String.substring 0 count fp.

Definition fclose (fs : FileSystem) : FileSystem :=
  {| fs_files := fs_files fs; fs_open := Nat.pred (fs_open fs) |}.

(** ** validation/test_cases/verilator_style_bugs.cpp *)

Module VerilatorStyleBugs.

Record VNumber : Type := mkVNumber {
  m_value : list Z;
  m_width : Z;
}.

(** [VNumber(int width)]; the allocation of [resize] is taken to succeed. *)
Definition VNumber_new (width : Z) : VNumber :=
  {| m_value := replicate (Z.to_nat (size_of_int (int_wrap (Z.quot (int_add width 31) 32)))) 0;
     m_width := width |}.

Definition clearAllBits (fuel : nat) (n : VNumber) : outcome VNumber :=
  for_loop fuel (λ i n, i <=? vec_size (m_value n)) size_succ
    (λ i n, v ← vec_set "m_value" (m_value n) i 0;
            Ok {| m_value := v; m_width := m_width n |})
    0 n.

Definition isValidBitRange (bit : Z) (n : VNumber) : bool :=
  (bit >=? 0) || (bit <? m_width n).

Record VOptions : Type := mkVOptions {
  m_options : gmap string string;
  m_accessCount : Z;
}.

Definition VOptions_new : VOptions := {| m_options := ∅; m_accessCount := 0 |}.

Definition getOption (key : string) (o : VOptions) : string * VOptions :=
  let o := {| m_options := m_options o; m_accessCount := int_succ (m_accessCount o) |} in
  match m_options o !! key with
  | Some value => (value, o)
  | None => ("", o)
  end.

Definition setOption (key value : string) (o : VOptions) : VOptions :=
  {| m_options := <[key := value]> (m_options o); m_accessCount := m_accessCount o |}.

Record VStatistics : Type := mkVStatistics {
  m_samples : list float;
}.

Definition VStatistics_new : VStatistics := {| m_samples := [] |}.

Definition addSample (value : float) (s : VStatistics) : VStatistics :=
  {| m_samples := m_samples s ++ [value] |}.

Definition getAverage (s : VStatistics) : outcome float :=
  sum ← for_each (λ x sum, Ok (PrimFloat.add sum x)) (m_samples s) 0%float;
  double_div sum (vec_size (m_samples s)).

Definition getPercentile (n total : Z) : outcome Z :=
  q ← int_div n total; Ok (int_mul q 100).

(** [VValidator] has no data member. *)
Definition isValidRange (value min max : Z) : bool :=
  (value >=? min) || (value <=? max).

Definition setBits (fuel : nat) (lsb msb value : Z) (n : VNumber) : outcome VNumber :=
  for_loop fuel (λ i _, i <=? msb) int_succ
    (λ i n,
       if negb (Z.land value (uint32_wrap (int_shl 1 (int_sub i lsb))) =? 0) then
         word ← int_div i 32;
         bit ← int_rem i 32;
         old ← vec_get "m_value" (m_value n) (size_of_int word);
         v ← vec_set "m_value" (m_value n) (size_of_int word)
               (Z.lor old (uint32_wrap (int_shl 1 bit)));
         Ok {| m_value := v; m_width := m_width n |}
       else Ok n)
    lsb n.

(** [VFileReader] has no data member; [sizeof(buffer)] is 4096.  The
    result is the value returned, [content] and the file system. *)
Definition readFile (filename content : string) (fs : FileSystem)
    : bool * string * FileSystem :=
  match fopen filename fs with
  | (None, fs) => (false, content, fs)
  | (Some fp, fs) =>
      let buffer := fread 4096 fp in
      let bytesRead := String.length buffer in
      if (bytesRead =? 0)%nat then (false, content, fs)
      else (true, buffer, fclose fs)
  end.

Definition readFileCorrect (filename content : string) (fs : FileSystem)
    : bool * string * FileSystem :=
  match fopen filename fs with
  | (None, fs) => (false, content, fs)
  | (Some fp, fs) =>
      let buffer := fread 4096 fp in
      let bytesRead := String.length buffer in
      if (bytesRead =? 0)%nat then (false, content, fclose fs)
      else (true, buffer, fclose fs)
  end.

Module VCleanExample.

Record t : Type := mk {
  m_data : list Z;
}.

Definition new : t := {| m_data := [] |}.

Definition addData (value : Z) (c : t) : t :=
  {| m_data := m_data c ++ [value] |}.

Definition getAverage (c : t) : outcome float :=
  if bool_decide (m_data c = []) then Ok 0%float
  else
    sum ← for_each (λ d sum, Ok (PrimFloat.add sum (double_of_Z d))) (m_data c) 0%float;
    double_div sum (vec_size (m_data c)).

Definition isValidIndex (idx : Z) (c : t) : bool :=
  idx <? vec_size (m_data c).

End VCleanExample.

End VerilatorStyleBugs.

(** ** docs/research/validation/test_cases/verilator_style_bugs_clean.cpp *)

Module VerilatorStyleBugsClean.

Record VNumber : Type := mkVNumber {
  m_value : list Z;
  m_width : Z;
}.

Definition VNumber_new (width : Z) : VNumber :=
  {| m_value := replicate (Z.to_nat (size_of_int (int_wrap (Z.quot (int_add width 31) 32)))) 0;
     m_width := width |}.

Definition clearAllBits (fuel : nat) (n : VNumber) : outcome VNumber :=
  for_loop fuel (λ i n, i <=? vec_size (m_value n)) size_succ
    (λ i n, v ← vec_set "m_value" (m_value n) i 0;
            Ok {| m_value := v; m_width := m_width n |})
    0 n.

Record VStatistics : Type := mkVStatistics {
  m_samples : list float;
}.

Definition VStatistics_new : VStatistics := {| m_samples := [] |}.

Definition addSample (value : float) (s : VStatistics) : VStatistics :=
  {| m_samples := m_samples s ++ [value] |}.

Definition getAverage (s : VStatistics) : outcome float :=
  sum ← for_each (λ x sum, Ok (PrimFloat.add sum x)) (m_samples s) 0%float;
  double_div sum (vec_size (m_samples s)).

Definition isValidRange (value min max : Z) : bool :=
  (value >=? min) || (value <=? max).

End VerilatorStyleBugsClean.

(** ** validation/test_cases/pr_simulation.cpp (namespace V3Signal) *)

Module PrSimulation.

Record DelayCalculator : Type := mkDelayCalculator {
  m_delays : list float;
  m_signalMap : gmap string Z;
  m_totalDelay : float;
}.

Definition DelayCalculator_new : DelayCalculator :=
  {| m_delays := []; m_signalMap := ∅; m_totalDelay := 0%float |}.

Definition addDelay (signal : string) (delay : float) (d : DelayCalculator) : DelayCalculator :=
  let delays := m_delays d ++ [delay] in
  {| m_delays := delays;
     m_signalMap := <[signal := int_of_size (size_wrap (vec_size delays - 1))]> (m_signalMap d);
     m_totalDelay := PrimFloat.add (m_totalDelay d) delay |}.

(** Body of the loop of [getCriticalPathDelay] once [path[i]] is read. *)
Definition criticalPathStep (d : DelayCalculator) (signal : string) (maxDelay : float) : outcome float :=
  match m_signalMap d !! signal with
  | Some idx =>
      delay ← vec_get "m_delays" (m_delays d) (size_of_int idx);
      Ok (double_max maxDelay delay)
  | None => Ok maxDelay
  end.

Definition getCriticalPathDelay (fuel : nat) (path : list string) (d : DelayCalculator) : outcome float :=
  for_loop fuel (λ i _, i <=? vec_size path) size_succ
    (λ i maxDelay, signal ← vec_get "path" path i; criticalPathStep d signal maxDelay)
    0 0%float.

Record EdgeDetector : Type := mkEdgeDetector {
  m_lastValues : list bool;
  m_currentValues : list bool;
  m_edgeCount : Z;
}.

Definition EdgeDetector_new (numSignals : Z) : EdgeDetector :=
  {| m_lastValues := replicate (Z.to_nat numSignals) false;
     m_currentValues := replicate (Z.to_nat numSignals) false;
     m_edgeCount := 0 |}.

Definition updateSignal (index : Z) (value : bool) (e : EdgeDetector) : outcome EdgeDetector :=
  if index <? vec_size (m_currentValues e) then
    v ← vec_set "m_currentValues" (m_currentValues e) index value;
    Ok {| m_lastValues := m_lastValues e; m_currentValues := v; m_edgeCount := m_edgeCount e |}
  else Ok e.

Definition hasRisingEdge (index : Z) (e : EdgeDetector) : outcome (bool * EdgeDetector) :=
  let e := {| m_lastValues := m_lastValues e;
              m_currentValues := m_currentValues e;
              m_edgeCount := int_succ (m_edgeCount e) |} in
  if index >=? vec_size (m_lastValues e) then Ok (false, e)
  else
    last ← vec_get "m_lastValues" (m_lastValues e) index;
    if negb last then
      current ← vec_get "m_currentValues" (m_currentValues e) index;
      Ok (current, e)
    else Ok (false, e).

Definition tick (e : EdgeDetector) : EdgeDetector :=
  {| m_lastValues := m_currentValues e;
     m_currentValues := m_currentValues e;
     m_edgeCount := m_edgeCount e |}.

Record SignalBuffer : Type := mkSignalBuffer {
  m_buffer : list float;
  m_writeIndex : Z;
  m_capacity : Z;
  m_wrapped : bool;
}.

(** [SignalBuffer(size_t capacity)]; the allocation of [resize] is taken to
    succeed, and the new elements are value-initialised. *)
Definition SignalBuffer_new (capacity : Z) : SignalBuffer :=
  {| m_buffer := replicate (Z.to_nat capacity) 0%float;
     m_writeIndex := 0;
     m_capacity := capacity;
     m_wrapped := false |}.

Definition write (value : float) (s : SignalBuffer) : outcome SignalBuffer :=
  buffer ← vec_set "m_buffer" (m_buffer s) (m_writeIndex s) value;
  let writeIndex := size_succ (m_writeIndex s) in
  if writeIndex >=? m_capacity s then
    Ok {| m_buffer := buffer; m_writeIndex := 0;
          m_capacity := m_capacity s; m_wrapped := true |}
  else
    Ok {| m_buffer := buffer; m_writeIndex := writeIndex;
          m_capacity := m_capacity s; m_wrapped := m_wrapped s |}.

(** The value of [idx] in [read] when it reaches [m_buffer[idx]].  The two
    compound assignments mix [int] and [size_t]: the sum is formed in
    [size_t] and converted back to [int]. *)
Definition read_index (offset : Z) (s : SignalBuffer) : Z :=
  let idx := int_add (int_of_size (m_writeIndex s)) offset in
  let idx := if idx <? 0 then int_of_size (size_wrap (size_of_int idx + m_capacity s)) else idx in
  let idx := if idx >=? int_of_size (m_capacity s)
             then int_of_size (size_wrap (size_of_int idx - m_capacity s)) else idx in
  idx.

Definition read (offset : Z) (s : SignalBuffer) : outcome float :=
  vec_get "m_buffer" (m_buffer s) (size_of_int (read_index offset s)).

Definition isValidRange (start end_ : Z) (s : SignalBuffer) : bool :=
  (start >=? 0) || (end_ <? int_of_size (m_capacity s)).

Record SignalStats : Type := mkSignalStats {
  m_min : float;
  m_max : float;
  m_sum : float;
  m_count : Z;
}.

Definition SignalStats_new : SignalStats :=
  {| m_min := DBL_MAX; m_max := DBL_LOWEST; m_sum := 0%float; m_count := 0 |}.

Definition addSample (value : float) (s : SignalStats) : SignalStats :=
  {| m_min := if PrimFloat.ltb value (m_min s) then value else m_min s;
     m_max := if PrimFloat.ltb (m_max s) value then value else m_max s;
     m_sum := PrimFloat.add (m_sum s) value;
     m_count := int_succ (m_count s) |}.

Definition getMean (s : SignalStats) : outcome float :=
  double_div (m_sum s) (m_count s).

Definition getRangePercent (part total : Z) : outcome Z :=
  q ← int_div part total; Ok (int_mul q 100).

Definition reset (s : SignalStats) : SignalStats :=
  {| m_min := DBL_MAX; m_max := DBL_LOWEST; m_sum := 0%float; m_count := 0 |}.

Definition getAverageDelay (d : DelayCalculator) : outcome float :=
  sum ← for_each (λ x sum, Ok (PrimFloat.add sum x)) (m_delays d) 0%float;
  double_div sum (vec_size (m_delays d)).

Definition getSignalDelay (signal : string) (d : DelayCalculator) : outcome float :=
  match m_signalMap d !! signal with
  | None => Ok (-1)%float
  | Some idx => vec_get "m_delays" (m_delays d) (size_of_int idx)
  end.

Definition hasFallingEdge (index : Z) (e : EdgeDetector) : outcome bool :=
  if index >=? vec_size (m_lastValues e) then Ok false
  else
    last ← vec_get "m_lastValues" (m_lastValues e) index;
    if (last : bool) then
      current ← vec_get "m_currentValues" (m_currentValues e) index;
      Ok (negb current)
    else Ok false.

Definition getEdgeCount (e : EdgeDetector) : Z := m_edgeCount e.

Definition getMovingAverage (fuel : nat) (windowSize : Z) (s : SignalBuffer) : outcome float :=
  let windowSize := if windowSize >? m_capacity s then m_capacity s else windowSize in
  sum ← for_loop fuel (λ i _, i <? windowSize) size_succ
          (λ i sum, x ← read (int_wrap (- int_of_size i)) s; Ok (PrimFloat.add sum x))
          0 0%float;
  double_div sum windowSize.

Definition getMin (s : SignalStats) : float := m_min s.
Definition getMax (s : SignalStats) : float := m_max s.

Module CleanSignalHandler.

Record t : Type := mk {
  m_signals : list float;
}.

Definition new : t := {| m_signals := [] |}.

Definition addSignal (value : float) (c : t) : t :=
  {| m_signals := m_signals c ++ [value] |}.

Definition getAverage (c : t) : outcome float :=
  if bool_decide (m_signals c = []) then Ok 0%float
  else
    sum ← for_each (λ x sum, Ok (PrimFloat.add sum x)) (m_signals c) 0%float;
    double_div sum (vec_size (m_signals c)).

Definition isValidIndex (idx : Z) (c : t) : bool :=
  idx <? vec_size (m_signals c).

End CleanSignalHandler.

End PrSimulation.

(** ** docs/research/test-data/synthetic-pr/module_1.cpp *)

Module Module1.

(** [processArray]; the state of the loop is what has been written to
    [std::cout]. *)
Definition processArray (fuel : nat) (arr : list Z) (size : Z) (cout : string) : outcome string :=
  for_loop fuel (λ i _, i <=? size) int_succ
    (λ i cout, x ← vec_get "arr" arr i; Ok (cout +:+ pretty x +:+ endl))
    0 cout.

Definition divide (a b : Z) : outcome float :=
  double_div (double_of_Z a) b.

(** [DataProcessor]: [data] points to the [size] ints made by [new int[n]]. *)
Record DataProcessor : Type := mkDataProcessor {
  data : list Z;
  size : Z;
}.

Definition get (index : Z) (p : DataProcessor) : outcome Z :=
  vec_get "data" (data p) index.

Definition processVector (fuel : nat) (v : list Z) (p : DataProcessor) : outcome DataProcessor :=
  for_loop fuel (λ i _, i <? vec_size v) size_succ
    (λ i p, x ← vec_get "v" v i;
            slot ← size_rem i (size p);
            d ← vec_set "data" (data p) slot (int_mul x 2);
            Ok {| data := d; size := size p |})
    0 p.

(** [i < parts.size()] compares the [int] counter as a [size_t]. *)
Definition buildString (fuel : nat) (parts : list string) : outcome string :=
  for_loop fuel (λ i _, size_of_int i <? vec_size parts) int_succ
    (λ i result, part ← vec_get "parts" parts (size_of_int i); Ok (result +:+ part))
    0 "".

End Module1.

(** ** test-data/synthetic-pr/module_3.cpp *)

Module Module3.

Record NetworkManager : Type := mkNetworkManager {
  connections : gmap Z string;
}.

Definition NetworkManager_new : NetworkManager := {| connections := ∅ |}.

Definition addConnection (id : Z) (addr : string) (nm : NetworkManager) : NetworkManager :=
  {| connections := <[id := addr]> (connections nm) |}.

(** [connections[id]] makes an empty entry for an [id] that has none. *)
Definition getConnection (id : Z) (nm : NetworkManager) : string * NetworkManager :=
  match connections nm !! id with
  | Some addr => (addr, nm)
  | None => ("", {| connections := <[id := ""]> (connections nm) |})
  end.

End Module3.

(** ** test-data/synthetic-pr/module_13.cpp

    The functions as one thread runs them; the state is the global
    [sharedCounter]. *)

Module Module13.

Definition incrementCounter (sharedCounter : Z) : Z := int_succ sharedCounter.

Definition accessSharedData (fuel : nat) (sharedCounter : Z) : outcome Z :=
  for_loop fuel (λ i _, i <? 1000) int_succ
    (λ i sharedCounter, Ok (int_succ sharedCounter))
    0 sharedCounter.

End Module13.

(** ** docs/research/test-data/sample-pr-001/before.cpp *)

Module Before.

Record DataProcessor : Type := mkDataProcessor {
  data : list Z;
  name : string;
}.

Definition DataProcessor_new (n : string) : DataProcessor :=
  {| data := []; name := n |}.

Definition addData (value : Z) (p : DataProcessor) : DataProcessor :=
  {| data := data p ++ [value]; name := name p |}.

Definition getSum (fuel : nat) (p : DataProcessor) : outcome Z :=
  for_loop fuel (λ i _, i <? vec_size (data p)) size_succ
    (λ i sum, x ← vec_get "data" (data p) i; Ok (int_add sum x))
    0 0.

Definition getName (p : DataProcessor) : string := name p.

(** Every element of [processors] points to an object of its own, made by
    [new] in [addProcessor]: the vector of pointers is a list of objects. *)
Record DataManager : Type := mkDataManager {
  processors : list DataProcessor;
}.

Definition DataManager_new : DataManager := {| processors := [] |}.

Definition addProcessor (n : string) (m : DataManager) : DataManager :=
  {| processors := processors m ++ [DataProcessor_new n] |}.

Definition processData (value : Z) (m : DataManager) : DataManager :=
  {| processors := addData value <$> processors m |}.

Definition printResults (fuel : nat) (m : DataManager) (cout : string) : outcome string :=
  for_each
    (λ proc cout, sum ← getSum fuel proc;
                  Ok (cout +:+ getName proc +:+ ": " +:+ pretty sum +:+ endl))
    (processors m) cout.

(** The manager of [main] when its loop is over. *)
Definition main_manager (fuel : nat) : outcome DataManager :=
  let manager := DataManager_new in
  let manager := addProcessor "Processor1" manager in
  let manager := addProcessor "Processor2" manager in
  for_loop fuel (λ i _, i <=? 10) int_succ (λ i manager, Ok (processData i manager)) 1 manager.

(** [main]: what it has written to [std::cout] and the value it returns. *)
Definition main (fuel : nat) : outcome (string * Z) :=
  manager ← main_manager fuel;
  cout ← printResults fuel manager "";
  Ok (cout, 0).

End Before.

(** ** Runs on the free store

    The objects made by [new] live at addresses; a pointer is an address,
    or null.  A run that follows a pointer to an object that has been
    deleted stops there. *)
Inductive mem_outcome (A : Type) : Type :=
  | MemOk (a : A)
  | UseAfterFree (addr : nat)
  | MemFault (f : fault)
  | MemOutOfFuel.

Arguments MemOk {A} a.
Arguments UseAfterFree {A} addr.
Arguments MemFault {A} f.
Arguments MemOutOfFuel {A}.

Global Instance mem_outcome_ret : MRet mem_outcome := λ A a, MemOk a.
Global Instance mem_outcome_bind : MBind mem_outcome := λ A B k m,
  match m with
  | MemOk a => k a
  | UseAfterFree addr => UseAfterFree addr
  | MemFault f => MemFault f
  | MemOutOfFuel => MemOutOfFuel
  end.

(** A run that does not touch the free store, inside one that does. *)
Definition mem_lift {A} (o : outcome A) : mem_outcome A :=
  match o with
  | Ok a => MemOk a
  | Fault f => MemFault f
  | OutOfFuel => MemOutOfFuel
  end.

Fixpoint mem_for_each {A St} (body : A → St → mem_outcome St) (l : list A) (s : St)
    : mem_outcome St :=
  match l with
  | [] => MemOk s
  | x :: l' => s' ← body x s; mem_for_each body l' s'
  end.

(** ** test-data/sample-pr-001/after.cpp *)

Module After.

(** [cachedSum] is either null or the only pointer to an [int] made by
    [new]: [None], or [Some] of the pointed value. *)
Record DataProcessor : Type := mkDataProcessor {
  data : list Z;
  name : string;
  cachedSum : option Z;
}.

Definition DataProcessor_new (n : string) : DataProcessor :=
  {| data := []; name := n; cachedSum := None |}.

Definition addData (value : Z) (p : DataProcessor) : DataProcessor :=
  let data := data p ++ [value] in
  match cachedSum p with
  | Some _ => {| data := data; name := name p; cachedSum := None |}
  | None => {| data := data; name := name p; cachedSum := cachedSum p |}
  end.

(** The loop of [getSum] updates the pointed value in place; its state is
    that value. *)
Definition getSum (fuel : nat) (p : DataProcessor) : outcome (Z * DataProcessor) :=
  match cachedSum p with
  | Some sum => Ok (sum, p)
  | None =>
      sum ← for_loop fuel (λ i _, i <? vec_size (data p)) size_succ
              (λ i sum, x ← vec_get "data" (data p) i; Ok (int_add sum x))
              0 0;
      Ok (sum, {| data := data p; name := name p; cachedSum := Some sum |})
  end.

Definition getName (p : DataProcessor) : string := name p.

(** The free store of after.cpp: the [DataProcessor] objects that are
    alive, by address, and the number of [int] objects made by [getSum]
    that are still allocated while no pointer reaches them. *)
Record Heap : Type := mkHeap {
  objects : gmap nat DataProcessor;
  leaked_ints : nat;
}.

(** [*proc], to read and to write. *)
Definition deref (proc : nat) (h : Heap) : mem_outcome DataProcessor :=
  match objects h !! proc with
  | Some p => MemOk p
  | None => UseAfterFree proc
  end.

Definition store (proc : nat) (p : DataProcessor) (h : Heap) : Heap :=
  {| objects := <[proc := p]> (objects h); leaked_ints := leaked_ints h |}.

(** [new DataProcessor(n)]: the object is put at an address that holds
    none. *)
Definition new_DataProcessor (n : string) (h : Heap) : nat * Heap :=
  let proc := fresh (dom (objects h)) in
  (proc, store proc (DataProcessor_new n) h).

(** [delete proc]: [~DataProcessor] does not delete [cachedSum]. *)
Definition delete_DataProcessor (proc : nat) (h : Heap) : mem_outcome Heap :=
  p ← deref proc h;
  MemOk {| objects := delete proc (objects h);
           leaked_ints := match cachedSum p with
                          | Some _ => S (leaked_ints h)
                          | None => leaked_ints h
                          end |}.

Record DataManager : Type := mkDataManager {
  processors : list nat;
  currentProcessor : option nat;
}.

Definition DataManager_new : DataManager :=
  {| processors := []; currentProcessor := None |}.

Definition addProcessor (n : string) (m : DataManager) (h : Heap) : DataManager * Heap :=
  let '(proc, h) := new_DataProcessor n h in
  ({| processors := processors m ++ [proc]; currentProcessor := Some proc |}, h).

Definition processData (value : Z) (m : DataManager) (h : Heap) : mem_outcome Heap :=
  let temp := processors m in
  mem_for_each (λ proc h, p ← deref proc h; MemOk (store proc (addData value p) h)) temp h.

(** The state of the loop is what has been written to [std::cout] and the
    free store. *)
Definition printResults (fuel : nat) (m : DataManager) (cout : string) (h : Heap)
    : mem_outcome (string * Heap) :=
  mem_for_each
    (λ proc '(cout, h),
       p ← deref proc h;
       let n := getName p in
       '(sum, p) ← mem_lift (getSum fuel p);
       MemOk (cout +:+ n +:+ ": " +:+ pretty sum +:+ endl, store proc p h))
    (processors m) (cout, h).

Definition getCurrentProcessor (m : DataManager) : option nat := currentProcessor m.

(** [~DataManager]. *)
Definition delete_DataManager (m : DataManager) (h : Heap) : mem_outcome Heap :=
  mem_for_each delete_DataProcessor (processors m) h.

(** [getProcessor]: the manager is a local variable, destroyed when the
    function returns. *)
Definition getProcessor (h : Heap) : mem_outcome (option nat * Heap) :=
  let manager := DataManager_new in
  let '(manager, h) := addProcessor "TempProcessor" manager h in
  let result := getCurrentProcessor manager in
  h ← delete_DataManager manager h;
  MemOk (result, h).

End After.

(** ** Clients of the two versions of [DataProcessor]

    A client makes a processor and then calls [addData] and [getSum] in
    some order; what it observes is the list of the integers that [getSum]
    returned. *)

Inductive call : Type :=
  | AddData (value : Z)
  | GetSum.

Fixpoint run_before (fuel : nat) (calls : list call) (p : Before.DataProcessor) : outcome (list Z) :=
  match calls with
  | [] => Ok []
  | AddData value :: calls => run_before fuel calls (Before.addData value p)
  | GetSum :: calls =>
      sum ← Before.getSum fuel p;
      sums ← run_before fuel calls p;
      Ok (sum :: sums)
  end.

Fixpoint run_after (fuel : nat) (calls : list call) (p : After.DataProcessor) : outcome (list Z) :=
  match calls with
  | [] => Ok []
  | AddData value :: calls => run_after fuel calls (After.addData value p)
  | GetSum :: calls =>
      '(sum, p) ← After.getSum fuel p;
      sums ← run_after fuel calls p;
      Ok (sum :: sums)
  end.

(** The number of [addData] calls of a client. *)
Fixpoint additions (calls : list call) : nat :=
  match calls with
  | [] => O
  | AddData _ :: calls => S (additions calls)
  | GetSum :: calls => additions calls
  end.

(** ** Class invariants

    What the constructors establish and the members keep. *)

(** [DelayCalculator]: every index stored in [m_signalMap] is an [int] that
    indexes [m_delays]. *)
Definition signalMap_valid (d : PrSimulation.DelayCalculator) : Prop :=
  map_Forall (λ _ idx, 0 ≤ idx < vec_size (PrSimulation.m_delays d) ∧ idx ≤ INT_MAX)
    (PrSimulation.m_signalMap d).

(** [EdgeDetector]: the two vectors have the same number of signals. *)
Definition same_signals (e : PrSimulation.EdgeDetector) : Prop :=
  length (PrSimulation.m_lastValues e) = length (PrSimulation.m_currentValues e).

(** [SignalBuffer]: the buffer has [m_capacity] elements, [m_capacity] is a
    [size_t], and the write index is a position of the buffer. *)
Definition buffer_inv (s : PrSimulation.SignalBuffer) : Prop :=
  vec_size (PrSimulation.m_buffer s) = PrSimulation.m_capacity s
  ∧ PrSimulation.m_capacity s ≤ SIZE_MAX
  ∧ 0 ≤ PrSimulation.m_writeIndex s < PrSimulation.m_capacity s.

(** The sum of a vector of [int] as the loops of [getSum] form it. *)
Definition int_sum (data : list Z) : Z := foldl int_add 0 data.

(** [After.DataProcessor]: a cached sum is the sum of the data. *)
Definition cache_fresh (p : After.DataProcessor) : Prop :=
  ∀ sum, After.cachedSum p = Some sum → sum = int_sum (After.data p).

(** The values that [main] of before.cpp hands to [processData]. *)
Definition one_to_ten : list Z := [1; 2; 3; 4; 5; 6; 7; 8; 9; 10].

(** The two versions of a processor hold the same data. *)
Definition same_data (b : Before.DataProcessor) (a : After.DataProcessor) : Prop :=
  Before.data b = After.data a.

(** A buffer of [2^30 + 1] samples after [2^30] writes of [0.0]. *)
Definition deep_buffer : PrSimulation.SignalBuffer :=
  {| PrSimulation.m_buffer := replicate (Z.to_nat (2 ^ 30 + 1)) 0%float;
     PrSimulation.m_writeIndex := 2 ^ 30;
     PrSimulation.m_capacity := 2 ^ 30 + 1;
     PrSimulation.m_wrapped := false |}.

(** [n] calls of [write(value)] in a row. *)
Fixpoint write_times (n : nat) (value : float) (s : PrSimulation.SignalBuffer)
    : outcome PrSimulation.SignalBuffer :=
  match n with
  | O => Ok s
  | S n => s ← PrSimulation.write value s; write_times n value s
  end.

(** ** Reference definitions for the further properties *)

(** The lookups of [keys], one after the other. *)
Definition getOptions (keys : list string) (o : VerilatorStyleBugs.VOptions)
    : VerilatorStyleBugs.VOptions :=
  foldl (λ o key, (VerilatorStyleBugs.getOption key o).2) o keys.

(** [addDelay] for every signal and delay of a list, in order. *)
Definition addDelays (delays : list (string * float)) (d : PrSimulation.DelayCalculator)
    : PrSimulation.DelayCalculator :=
  foldl (λ d sd, PrSimulation.addDelay sd.1 sd.2 d) d delays.

(** [DelayCalculator]: the running total is the sum that [getAverageDelay]
    forms again. *)
Definition total_is_sum (d : PrSimulation.DelayCalculator) : Prop :=
  PrSimulation.m_totalDelay d = foldl PrimFloat.add 0%float (PrSimulation.m_delays d).

(** [addSample], respectively [addSignal], for every value of a list. *)
Definition addSamples (values : list float) (s : PrSimulation.SignalStats)
    : PrSimulation.SignalStats :=
  foldl (λ s value, PrSimulation.addSample value s) s values.

Definition addSignals (values : list float) (c : PrSimulation.CleanSignalHandler.t)
    : PrSimulation.CleanSignalHandler.t :=
  foldl (λ c value, PrSimulation.CleanSignalHandler.addSignal value c) c values.

(** What [processVector] stores for an element [x]. *)
Definition doubled (x : Z) : Z := int_mul x 2.

(** The manager of before.cpp after [addProcessor] for every name and then
    [processData] for every value, and the line that [printResults] writes
    for a processor. *)
Definition manager_of (names : list string) (values : list Z) : Before.DataManager :=
  foldl (λ m value, Before.processData value m)
    (foldl (λ m n, Before.addProcessor n m) Before.DataManager_new names) values.

Definition result_line (n : string) (sum : Z) : string :=
  n +:+ ": " +:+ pretty sum +:+ endl.

(** Bit [j] of a number held in 32-bit words, the lowest word first. *)
Definition number_bit (words : list Z) (j : Z) : bool :=
  match words !! Z.to_nat (j `div` 32) with
  | Some word => Z.testbit word (j `mod` 32)
  | None => false
  end.

(** after.cpp: [addProcessor] for every name, and [processData] for every
    value. *)
Definition after_add_all (names : list string) (m : After.DataManager) (h : After.Heap)
    : After.DataManager * After.Heap :=
  foldl (λ mh n, After.addProcessor n mh.1 mh.2) (m, h) names.

Definition after_process_all (values : list Z) (m : After.DataManager) (h : After.Heap)
    : mem_outcome After.Heap :=
  mem_for_each (λ value h, After.processData value m h) values h.

(** The manager [m] owns the objects [ps] on the free store [h]: its
    pointers are distinct and point to them, in order; [base] is the rest of
    the store, where none of these addresses is in use. *)
Definition manages (base : gmap nat After.DataProcessor) (ps : list After.DataProcessor)
    (m : After.DataManager) (h : After.Heap) : Prop :=
  NoDup (After.processors m)
  ∧ Forall2 (λ proc p, After.objects h !! proc = Some p) (After.processors m) ps
  ∧ (∀ proc, proc ∈ After.processors m → base !! proc = None)
  ∧ (∀ proc, proc ∉ After.processors m → After.objects h !! proc = base !! proc).

(** A processor of after.cpp once [getSum] has filled its cache. *)
Definition cached (p : After.DataProcessor) : After.DataProcessor :=
  {| After.data := After.data p; After.name := After.name p;
     After.cachedSum := Some (int_sum (After.data p)) |}.

(** The number of processors of a list whose cache is filled. *)
Definition cached_count (ps : list After.DataProcessor) : nat :=
  length (filter (λ p, is_Some (After.cachedSum p)) ps).

(** A processor of after.cpp that was made with the name [n], then given
    [values] and never asked for its sum. *)
Definition filled (values : list Z) (n : string) : After.DataProcessor :=
  {| After.data := values; After.name := n; After.cachedSum := None |}.

(** * Properties *)

(** ** Machine integers *)

Lemma int_wrap_small z : INT_MIN ≤ z ≤ INT_MAX → int_wrap z = z.
Proof.
  unfold INT_MIN, INT_MAX, int_wrap. intros Hz.
  rewrite Z.mod_small by lia. lia.
Qed.

Lemma int_wrap_range z : INT_MIN ≤ int_wrap z ≤ INT_MAX.
Proof.
  unfold INT_MIN, INT_MAX, int_wrap.
  pose proof (Z.mod_pos_bound (z + 2 ^ 31) (2 ^ 32)). lia.
Qed.

Lemma size_wrap_small z : 0 ≤ z ≤ SIZE_MAX → size_wrap z = z.
Proof. unfold SIZE_MAX, size_wrap. intros Hz. apply Z.mod_small. lia. Qed.

Lemma size_wrap_range z : 0 ≤ size_wrap z ≤ SIZE_MAX.
Proof.
  unfold SIZE_MAX, size_wrap.
  pose proof (Z.mod_pos_bound z (2 ^ 64)). lia.
Qed.

Lemma int_succ_small i : INT_MIN ≤ i < INT_MAX → int_succ i = i + 1.
Proof. intros Hi. apply int_wrap_small. lia. Qed.

Lemma size_succ_small i : 0 ≤ i < SIZE_MAX → size_succ i = i + 1.
Proof. intros Hi. apply size_wrap_small. lia. Qed.

(** ** Vectors *)

Section vec_facts.
Context {A : Type}.
Implicit Types (v : list A) (i : Z).

Lemma vec_size_nonneg v : 0 ≤ vec_size v.
Proof. unfold vec_size. lia. Qed.

Lemma vec_get_outside buf v i :
  ¬ (0 ≤ i < vec_size v) → vec_get buf v i = Fault (OutOfBounds buf i).
Proof. intros Hi. unfold vec_get. by rewrite bool_decide_eq_false_2. Qed.

Lemma vec_get_inside buf v (k : nat) x :
  v !! k = Some x → vec_get buf v (Z.of_nat k) = Ok x.
Proof.
  intros Hx. unfold vec_get, vec_size.
  pose proof (lookup_lt_Some _ _ _ Hx).
  rewrite bool_decide_eq_true_2 by lia. by rewrite Nat2Z.id, Hx.
Qed.

Lemma vec_get_total buf v i :
  0 ≤ i < vec_size v → ∃ x, vec_get buf v i = Ok x.
Proof.
  intros Hi. unfold vec_size in Hi.
  destruct (lookup_lt_is_Some_2 v (Z.to_nat i)) as [x Hx]; [lia |].
  exists x. rewrite <- (Z2Nat.id i) by lia. by apply vec_get_inside.
Qed.

Lemma vec_set_outside buf v i x :
  ¬ (0 ≤ i < vec_size v) → vec_set buf v i x = Fault (OutOfBounds buf i).
Proof. intros Hi. unfold vec_set. by rewrite bool_decide_eq_false_2. Qed.

Lemma vec_set_inside buf v i x :
  0 ≤ i < vec_size v → vec_set buf v i x = Ok (<[Z.to_nat i := x]> v).
Proof. intros Hi. unfold vec_set. by rewrite bool_decide_eq_true_2. Qed.

Lemma vec_size_insert v (n : nat) x : vec_size (<[n := x]> v) = vec_size v.
Proof. unfold vec_size. by rewrite length_insert. Qed.

Lemma vec_size_snoc v x : vec_size (v ++ [x]) = vec_size v + 1.
Proof. unfold vec_size. rewrite length_app. simpl. lia. Qed.

Lemma vec_size_replicate (n : Z) (x : A) : 0 ≤ n → vec_size (replicate (Z.to_nat n) x) = n.
Proof. intros Hn. unfold vec_size. rewrite length_replicate. lia. Qed.

End vec_facts.

(** ** Loops *)

Lemma bind_Ok {A B} (k : A → outcome B) (a : A) : (Ok a ≫= k) = k a.
Proof. reflexivity. Qed.

Lemma bind_Fault {A B} (k : A → outcome B) f : (Fault f ≫= k) = Fault f.
Proof. reflexivity. Qed.

(** A loop that has ended, normally or in a fault, ends the same way on
    more fuel. *)
Lemma for_loop_more_fuel {St} cond incr (body : Z → St → outcome St) fuel :
  ∀ fuel' i s,
    for_loop fuel cond incr body i s ≠ OutOfFuel → (fuel ≤ fuel')%nat →
    for_loop fuel' cond incr body i s = for_loop fuel cond incr body i s.
Proof.
  induction fuel as [| fuel IH]; intros fuel' i s Hr Hle; [done |].
  destruct fuel' as [| fuel']; [lia |]. simpl in *.
  destruct (cond i s); [| done].
  destruct (body i s) as [s' | f |]; simpl in *; [| done | done].
  apply IH; [done | lia].
Qed.

Section scan.
Context {A St : Type} (buf : string) (v : list A) (g : A → St → outcome St).
Context (incr : Z → Z).
Hypothesis incr_next : ∀ i, 0 ≤ i < vec_size v → incr i = i + 1.

(** [for (i = k; i < v.size(); i++) { x = v[i]; g }] is the range-for over the
    elements from [k] on. *)
Lemma for_loop_below fuel :
  ∀ (k : nat) s, (k ≤ length v)%nat → (length v - k < fuel)%nat →
    for_loop fuel (λ i _, i <? vec_size v) incr
      (λ i s, x ← vec_get buf v i; g x s) (Z.of_nat k) s
    = for_each g (drop k v) s.
Proof.
  induction fuel as [| fuel IH]; intros k s Hk Hfuel; [lia |]. simpl.
  destruct (decide (k = length v)) as [-> | Hne].
  - unfold vec_size. rewrite Z.ltb_irrefl, drop_all. done.
  - assert (Hlt : (k < length v)%nat) by lia.
    destruct (lookup_lt_is_Some_2 v k Hlt) as [x Hx].
    unfold vec_size at 1. rewrite (proj2 (Z.ltb_lt _ _)) by lia.
    rewrite (vec_get_inside _ _ _ _ Hx), (drop_S _ _ _ Hx). simpl.
    destruct (g x s) as [s' | f |]; simpl; [| done | done].
    rewrite incr_next by (unfold vec_size; lia).
    replace (Z.of_nat k + 1) with (Z.of_nat (S k)) by lia.
    apply IH; lia.
Qed.

(** With the inclusive bound the same loop goes on to read [v[v.size()]]. *)
Lemma for_loop_through fuel :
  ∀ (k : nat) s, (k ≤ length v)%nat → (length v - k < fuel)%nat →
    for_loop fuel (λ i _, i <=? vec_size v) incr
      (λ i s, x ← vec_get buf v i; g x s) (Z.of_nat k) s
    = (for_each g (drop k v) s ≫= λ _, Fault (OutOfBounds buf (vec_size v))).
Proof.
  induction fuel as [| fuel IH]; intros k s Hk Hfuel; [lia |]. simpl.
  unfold vec_size at 1. rewrite (proj2 (Z.leb_le _ _)) by lia.
  destruct (decide (k = length v)) as [-> | Hne].
  - rewrite drop_all. simpl.
    rewrite vec_get_outside by (unfold vec_size; lia). done.
  - assert (Hlt : (k < length v)%nat) by lia.
    destruct (lookup_lt_is_Some_2 v k Hlt) as [x Hx].
    rewrite (vec_get_inside _ _ _ _ Hx), (drop_S _ _ _ Hx). simpl.
    destruct (g x s) as [s' | f |]; simpl; [| done | done].
    rewrite incr_next by (unfold vec_size; lia).
    replace (Z.of_nat k + 1) with (Z.of_nat (S k)) by lia.
    apply IH; lia.
Qed.

End scan.

(** A range-for whose body never faults ends normally. *)
Lemma for_each_total {A St} (g : A → St → outcome St) (l : list A) :
  (∀ x s, ∃ s', g x s = Ok s') → ∀ s, ∃ s', for_each g l s = Ok s'.
Proof.
  intros Hg. induction l as [| x l IH]; intros s; simpl; [by eexists |].
  destruct (Hg x s) as [s' ->]. simpl. apply IH.
Qed.

Section clear.
Context {St : Type} (buf : string) (get : St → list Z) (set : list Z → St → St).
Hypothesis get_set : ∀ v s, get (set v s) = v.

(** [for (size_t i = k; i <= v.size(); i++) v[i] = 0] on a member vector [v]
    of the object ends in the write to [v[v.size()]]. *)
Lemma clear_loop_faults fuel :
  ∀ (k : nat) s,
    vec_size (get s) ≤ SIZE_MAX → (k ≤ length (get s))%nat → (length (get s) - k < fuel)%nat →
    for_loop fuel (λ i s, i <=? vec_size (get s)) size_succ
      (λ i s, v ← vec_set buf (get s) i 0; Ok (set v s)) (Z.of_nat k) s
    = Fault (OutOfBounds buf (vec_size (get s))).
Proof.
  induction fuel as [| fuel IH]; intros k s Hmax Hk Hfuel; [lia |]. simpl.
  unfold vec_size at 1. rewrite (proj2 (Z.leb_le _ _)) by lia.
  destruct (decide (k = length (get s))) as [-> | Hne].
  - rewrite vec_set_outside by (unfold vec_size; lia). done.
  - rewrite vec_set_inside by (unfold vec_size; lia). simpl.
    rewrite size_succ_small by (unfold vec_size in Hmax; lia).
    replace (Z.of_nat k + 1) with (Z.of_nat (S k)) by lia.
    rewrite IH; rewrite get_set.
    + by rewrite vec_size_insert.
    + by rewrite vec_size_insert.
    + rewrite length_insert. lia.
    + rewrite length_insert. lia.
Qed.

End clear.

(** ** Inclusive-bound loops *)

Section inclusive_loops.
Import PrSimulation.

Lemma signalMap_valid_new : signalMap_valid DelayCalculator_new.
Proof. unfold signalMap_valid. simpl. apply map_Forall_empty. Qed.

Lemma signalMap_valid_addDelay signal delay d :
  signalMap_valid d → vec_size (m_delays d) ≤ INT_MAX →
  signalMap_valid (addDelay signal delay d).
Proof.
  unfold signalMap_valid, addDelay. simpl. intros Hd Hsize.
  pose proof (vec_size_nonneg (m_delays d)) as Hpos.
  rewrite vec_size_snoc.
  replace (vec_size (m_delays d) + 1 - 1) with (vec_size (m_delays d)) by lia.
  unfold INT_MAX in Hsize.
  rewrite size_wrap_small by (unfold SIZE_MAX; lia).
  unfold int_of_size. rewrite int_wrap_small by (unfold INT_MIN, INT_MAX; lia).
  apply map_Forall_insert_2.
  - unfold INT_MAX. lia.
  - eapply map_Forall_impl; [exact Hd |]. simpl. intros _ idx. lia.
Qed.

Lemma criticalPathStep_total d signal maxDelay :
  signalMap_valid d → ∃ maxDelay', criticalPathStep d signal maxDelay = Ok maxDelay'.
Proof.
  intros Hd. unfold criticalPathStep.
  destruct (m_signalMap d !! signal) as [idx |] eqn:Hidx; [| by eexists].
  destruct (Hd _ _ Hidx) as [Hin Hint]. unfold INT_MAX in Hint.
  unfold size_of_int. rewrite size_wrap_small by (unfold SIZE_MAX; lia).
  destruct (vec_get_total "m_delays" (m_delays d) idx Hin) as [delay ->].
  by eexists.
Qed.

Lemma criticalPath_range_for_total d path :
  signalMap_valid d →
  ∀ maxDelay, ∃ maxDelay', for_each (criticalPathStep d) path maxDelay = Ok maxDelay'.
Proof.
  intros Hd. apply for_each_total. intros signal maxDelay.
  by apply criticalPathStep_total.
Qed.

Lemma getCriticalPathDelay_past_end d path fuel :
  signalMap_valid d → vec_size path ≤ SIZE_MAX → (length path < fuel)%nat →
  getCriticalPathDelay fuel path d = Fault (OutOfBounds "path" (vec_size path)).
Proof.
  intros Hd Hmax Hfuel. unfold getCriticalPathDelay.
  rewrite (for_loop_through "path" path (criticalPathStep d) size_succ) with (k := O).
  - rewrite drop_0.
    destruct (criticalPath_range_for_total d path Hd 0%float) as [m ->]. done.
  - intros i Hi. apply size_succ_small. lia.
  - lia.
  - lia.
Qed.

(** Without the invariant the run may stop earlier, at an index of
    [m_delays]; it never ends normally. *)
Lemma criticalPathStep_cases d signal maxDelay :
  (∃ maxDelay', criticalPathStep d signal maxDelay = Ok maxDelay')
  ∨ (∃ idx, criticalPathStep d signal maxDelay = Fault (OutOfBounds "m_delays" idx)).
Proof.
  unfold criticalPathStep.
  destruct (m_signalMap d !! signal) as [idx |]; [| left; by eexists].
  unfold vec_get. case_bool_decide; [| right; by eexists].
  destruct (m_delays d !! _); [left | right]; by eexists.
Qed.

Lemma criticalPath_range_for_cases d path :
  ∀ maxDelay,
    (∃ maxDelay', for_each (criticalPathStep d) path maxDelay = Ok maxDelay')
    ∨ (∃ idx, for_each (criticalPathStep d) path maxDelay
              = Fault (OutOfBounds "m_delays" idx)).
Proof.
  induction path as [| signal path IH]; intros maxDelay; simpl; [left; by eexists |].
  destruct (criticalPathStep_cases d signal maxDelay) as [[m ->] | [idx ->]]; simpl.
  - apply IH.
  - right. by eexists.
Qed.

Lemma getCriticalPathDelay_faults d path fuel :
  vec_size path ≤ SIZE_MAX → (length path < fuel)%nat →
  getCriticalPathDelay fuel path d = Fault (OutOfBounds "path" (vec_size path))
  ∨ ∃ idx, getCriticalPathDelay fuel path d = Fault (OutOfBounds "m_delays" idx).
Proof.
  intros Hmax Hfuel. unfold getCriticalPathDelay.
  rewrite (for_loop_through "path" path (criticalPathStep d) size_succ) with (k := O).
  - rewrite drop_0.
    destruct (criticalPath_range_for_cases d path 0%float) as [[m ->] | [idx ->]]; simpl.
    + by left.
    + right. by eexists.
  - intros i Hi. apply size_succ_small. lia.
  - lia.
  - lia.
Qed.

Lemma processArray_past_end arr size cout fuel :
  size = vec_size arr → size ≤ INT_MAX → (length arr < fuel)%nat →
  Module1.processArray fuel arr size cout = Fault (OutOfBounds "arr" size).
Proof.
  intros -> Hmax Hfuel. unfold Module1.processArray.
  rewrite (for_loop_through "arr" arr (λ x cout, Ok (cout +:+ pretty x +:+ endl)) int_succ)
    with (k := O).
  - rewrite drop_0.
    destruct (for_each_total (λ x cout, Ok (cout +:+ pretty x +:+ endl)) arr) with (s := cout)
      as [cout' ->]; [by eexists | done].
  - intros i Hi. apply int_succ_small. unfold INT_MIN. lia.
  - lia.
  - lia.
Qed.

Lemma clearAllBits_past_end n fuel :
  vec_size (VerilatorStyleBugs.m_value n) ≤ SIZE_MAX →
  (length (VerilatorStyleBugs.m_value n) < fuel)%nat →
  VerilatorStyleBugs.clearAllBits fuel n
  = Fault (OutOfBounds "m_value" (vec_size (VerilatorStyleBugs.m_value n))).
Proof.
  intros Hmax Hfuel. unfold VerilatorStyleBugs.clearAllBits.
  apply (clear_loop_faults "m_value" VerilatorStyleBugs.m_value
           (λ v n, VerilatorStyleBugs.mkVNumber v (VerilatorStyleBugs.m_width n))) with (k := O);
    [done | done | lia | lia].
Qed.

End inclusive_loops.

(** C1. Every inclusive-bound loop reads one element past the end of its
    buffer.  For every [VNumber] the run of [clearAllBits] ends in the access
    to [m_value[m_value.size()]]; for every array [arr] of [size] elements
    the run of [processArray(arr, size)] ends in the read of [arr[size]]; and
    for every path the run of [getCriticalPathDelay(path)], on a
    [DelayCalculator] whose map indexes its delays, ends in the read of
    [path[path.size()]]; on any other [DelayCalculator] the run ends there
    or earlier at an index outside [m_delays], so that no call ends
    without an access out of bounds.  The sizes are those a [size_t],
    respectively an [int], can hold, and the fuel covers the iterations. *)
Theorem inclusive_loops_read_past_end :
  (∀ (n : VerilatorStyleBugs.VNumber) (fuel : nat),
     vec_size (VerilatorStyleBugs.m_value n) ≤ SIZE_MAX →
     (length (VerilatorStyleBugs.m_value n) < fuel)%nat →
     VerilatorStyleBugs.clearAllBits fuel n
     = Fault (OutOfBounds "m_value" (vec_size (VerilatorStyleBugs.m_value n))))
  ∧ (∀ (arr : list Z) (size : Z) (cout : string) (fuel : nat),
       size = vec_size arr → size ≤ INT_MAX → (length arr < fuel)%nat →
       Module1.processArray fuel arr size cout = Fault (OutOfBounds "arr" size))
  ∧ (∀ (d : PrSimulation.DelayCalculator) (path : list string) (fuel : nat),
       signalMap_valid d → vec_size path ≤ SIZE_MAX → (length path < fuel)%nat →
       PrSimulation.getCriticalPathDelay fuel path d
       = Fault (OutOfBounds "path" (vec_size path)))
  ∧ (∀ (d : PrSimulation.DelayCalculator) (path : list string) (fuel : nat),
       vec_size path ≤ SIZE_MAX → (length path < fuel)%nat →
       PrSimulation.getCriticalPathDelay fuel path d
       = Fault (OutOfBounds "path" (vec_size path))
       ∨ ∃ idx, PrSimulation.getCriticalPathDelay fuel path d
                = Fault (OutOfBounds "m_delays" idx)).
Proof.
  split; [| split; [| split]].
  - intros n fuel. apply clearAllBits_past_end.
  - intros arr size cout fuel. apply processArray_past_end.
  - intros d path fuel. apply getCriticalPathDelay_past_end.
  - intros d path fuel. apply getCriticalPathDelay_faults.
Qed.

Lemma inclusive_loops_read_past_end_witness :
  VerilatorStyleBugs.clearAllBits 3 (VerilatorStyleBugs.VNumber_new 64)
  = Fault (OutOfBounds "m_value" 2)
  ∧ Module1.processArray 6 [1; 2; 3; 4; 5] 5 "" = Fault (OutOfBounds "arr" 5)
  ∧ PrSimulation.getCriticalPathDelay 3 ["clk"; "rst"]
      (PrSimulation.addDelay "clk" 2%float PrSimulation.DelayCalculator_new)
    = Fault (OutOfBounds "path" 2).
Proof.
  destruct inclusive_loops_read_past_end as (Hclear & Harray & Hpath & _).
  split; [| split].
  - apply (Hclear (VerilatorStyleBugs.VNumber_new 64) 3%nat); [by vm_compute | simpl; lia].
  - apply (Harray [1; 2; 3; 4; 5] 5 "" 6%nat); [reflexivity | by vm_compute | simpl; lia].
  - apply (Hpath (PrSimulation.addDelay "clk" 2%float PrSimulation.DelayCalculator_new)
             ["clk"; "rst"] 3%nat).
    + apply (bool_decide_unpack _). by vm_compute.
    + by vm_compute.
    + simpl. lia.
Defined.

(** ** Range checks written with [||] *)

(** C2. The range checks written with [||] accept every input:
    [VValidator::isValidRange(value, min, max)] is true for all integers with
    [min <= max], below [min] and above [max] included;
    [VNumber::isValidBitRange(bit)] is true for every [bit] when
    [m_width >= 0]; [SignalBuffer::isValidRange(start, end)] is true for
    every [start >= 0], whatever [end] is. *)
Theorem or_range_checks_accept_everything :
  (∀ value min max : Z, min ≤ max → VerilatorStyleBugs.isValidRange value min max = true)
  ∧ (∃ value min max : Z,
       min ≤ max ∧ value < min ∧ VerilatorStyleBugs.isValidRange value min max = true)
  ∧ (∃ value min max : Z,
       min ≤ max ∧ max < value ∧ VerilatorStyleBugs.isValidRange value min max = true)
  ∧ (∀ (bit : Z) (n : VerilatorStyleBugs.VNumber),
       0 ≤ VerilatorStyleBugs.m_width n → VerilatorStyleBugs.isValidBitRange bit n = true)
  ∧ (∀ (start end_ : Z) (s : PrSimulation.SignalBuffer),
       0 ≤ start → PrSimulation.isValidRange start end_ s = true).
Proof.
  repeat split.
  - intros value min max Hle. unfold VerilatorStyleBugs.isValidRange.
    apply orb_true_iff. rewrite Z.geb_le, Z.leb_le. lia.
  - exists 0, 1, 2. repeat split; lia.
  - exists 3, 1, 2. repeat split; lia.
  - intros bit n Hwidth. unfold VerilatorStyleBugs.isValidBitRange.
    apply orb_true_iff. rewrite Z.geb_le, Z.ltb_lt. lia.
  - intros start end_ s Hstart. unfold PrSimulation.isValidRange.
    apply orb_true_iff. left. apply Z.geb_le. lia.
Qed.

Lemma or_range_checks_accept_everything_witness :
  VerilatorStyleBugs.isValidRange 25 10 20 = true
  ∧ VerilatorStyleBugs.isValidBitRange 99 (VerilatorStyleBugs.VNumber_new 8) = true
  ∧ PrSimulation.isValidRange 0 99 (PrSimulation.SignalBuffer_new 4) = true.
Proof.
  destruct or_range_checks_accept_everything as (Hrange & _ & _ & Hbit & Hbuffer).
  split; [| split].
  - apply (Hrange 25 10 20). lia.
  - apply (Hbit 99 (VerilatorStyleBugs.VNumber_new 8)). simpl. lia.
  - apply (Hbuffer 0 99 (PrSimulation.SignalBuffer_new 4)). lia.
Defined.

(** ** Divisions without a guard *)

Lemma double_div_zero x n : double_div x n = Fault DivByZero ↔ n = 0.
Proof.
  unfold double_div. destruct (n =? 0) eqn:Hn.
  - apply Z.eqb_eq in Hn. done.
  - apply Z.eqb_neq in Hn. split; [discriminate | done].
Qed.

Lemma float_range_for_total (samples : list float) :
  ∀ sum, ∃ sum', for_each (λ x sum, Ok (PrimFloat.add sum x)) samples sum = Ok sum'.
Proof. apply for_each_total. intros x sum. by eexists. Qed.

Lemma getAverage_zero s :
  VerilatorStyleBugs.getAverage s = Fault DivByZero ↔ VerilatorStyleBugs.m_samples s = [].
Proof.
  unfold VerilatorStyleBugs.getAverage.
  destruct (float_range_for_total (VerilatorStyleBugs.m_samples s) 0%float) as [sum ->].
  rewrite bind_Ok, double_div_zero. unfold vec_size.
  destruct (VerilatorStyleBugs.m_samples s); simpl; [done |]. split; [lia | done].
Qed.

(** C3. Division by zero is reachable at the public interface: with no
    sample added, [VStatistics::getAverage] divides by [m_samples.size() = 0]
    and [SignalStats::getMean] (newly made, or after [reset]) by
    [m_count = 0]; [divide(a, 0)] divides by zero for every [a], and
    [divide(10, 0)] is the call of [main].  None of the three has a guard:
    each divides by zero whenever its divisor is zero, and only then. *)
Theorem averages_divide_by_zero :
  (VerilatorStyleBugs.getAverage VerilatorStyleBugs.VStatistics_new = Fault DivByZero
   ∧ vec_size (VerilatorStyleBugs.m_samples VerilatorStyleBugs.VStatistics_new) = 0
   ∧ ∀ s, VerilatorStyleBugs.getAverage s = Fault DivByZero
          ↔ vec_size (VerilatorStyleBugs.m_samples s) = 0)
  ∧ (PrSimulation.getMean PrSimulation.SignalStats_new = Fault DivByZero
     ∧ PrSimulation.m_count PrSimulation.SignalStats_new = 0
     ∧ (∀ s, PrSimulation.getMean (PrSimulation.reset s) = Fault DivByZero)
     ∧ ∀ s, PrSimulation.getMean s = Fault DivByZero ↔ PrSimulation.m_count s = 0)
  ∧ (Module1.divide 10 0 = Fault DivByZero
     ∧ ∀ a b : Z, Module1.divide a b = Fault DivByZero ↔ b = 0).
Proof.
  split; [| split].
  - split; [reflexivity | split; [reflexivity |]].
    intros s. rewrite getAverage_zero. unfold vec_size.
    destruct (VerilatorStyleBugs.m_samples s); simpl; [done |]. split; [done | lia].
  - split; [reflexivity | split; [reflexivity | split; [reflexivity |]]].
    intros s. apply double_div_zero.
  - split; [reflexivity |]. intros a b. apply double_div_zero.
Qed.

(** ** Percentages in integer arithmetic *)

Lemma percent_of_part n total :
  0 ≤ n < total → (int_div n total ≫= λ q, Ok (int_mul q 100)) = Ok 0.
Proof.
  intros Hn. unfold int_div.
  rewrite (proj2 (Z.eqb_neq total 0)) by lia.
  rewrite Z.quot_small by lia. reflexivity.
Qed.

Lemma percent_nonzero n total r :
  0 ≤ n → (int_div n total ≫= λ q, Ok (int_mul q 100)) = Ok r → r ≠ 0 → total ≤ n.
Proof.
  intros Hn Hr Hnz. destruct (decide (total ≤ n)) as [| Hlt]; [done |].
  rewrite percent_of_part in Hr by lia. congruence.
Qed.

(** C9. For all integers with [0 <= n < total], [getPercentile(n, total)]
    and [getRangePercent(n, total)] return 0, the quotient [n / total] being
    0 before it is multiplied by 100; for [n >= 0] a result other than 0
    needs [n >= total]. *)
Theorem percent_truncates_to_zero :
  (∀ n total : Z, 0 ≤ n < total →
     int_div n total = Ok 0
     ∧ VerilatorStyleBugs.getPercentile n total = Ok 0
     ∧ PrSimulation.getRangePercent n total = Ok 0)
  ∧ (∀ n total r : Z, 0 ≤ n →
       VerilatorStyleBugs.getPercentile n total = Ok r
       ∨ PrSimulation.getRangePercent n total = Ok r →
       r ≠ 0 → total ≤ n).
Proof.
  split.
  - intros n total Hn. split; [| split].
    + unfold int_div. rewrite (proj2 (Z.eqb_neq total 0)) by lia.
      by rewrite Z.quot_small by lia.
    + by apply percent_of_part.
    + by apply percent_of_part.
  - intros n total r Hn [Hr | Hr] Hnz; by apply (percent_nonzero n total r).
Qed.

Lemma percent_truncates_to_zero_witness :
  VerilatorStyleBugs.getPercentile 99 100 = Ok 0
  ∧ PrSimulation.getRangePercent 99 100 = Ok 0
  ∧ 100 ≤ 250.
Proof.
  destruct percent_truncates_to_zero as (Hzero & Hnonzero).
  split; [| split].
  - apply (Hzero 99 100). lia.
  - apply (Hzero 99 100). lia.
  - apply (Hnonzero 250 100 200); [lia | by left | lia].
Defined.

(** ** Getters with a side effect *)

Section getters.
Import PrSimulation.

Lemma same_signals_new numSignals : same_signals (EdgeDetector_new numSignals).
Proof. unfold same_signals. simpl. by rewrite !length_replicate. Qed.

Lemma same_signals_tick e : same_signals (tick e).
Proof. done. Qed.

Lemma same_signals_updateSignal index value e e' :
  same_signals e → updateSignal index value e = Ok e' → same_signals e'.
Proof.
  unfold same_signals, updateSignal. intros He.
  destruct (index <? vec_size (m_currentValues e)); [| congruence].
  unfold vec_set. case_bool_decide; simpl; [| done].
  intros [= <-]. simpl. by rewrite length_insert.
Qed.

Lemma hasRisingEdge_counts index e :
  same_signals e → 0 ≤ index →
  ∃ rising : bool,
    hasRisingEdge index e
    = Ok (rising, {| m_lastValues := m_lastValues e;
                     m_currentValues := m_currentValues e;
                     m_edgeCount := int_succ (m_edgeCount e) |})
    ∧ (vec_size (m_lastValues e) ≤ index → rising = false).
Proof.
  intros He Hindex. unfold hasRisingEdge. simpl.
  destruct (index >=? vec_size (m_lastValues e)) eqn:Hge.
  - by exists false.
  - rewrite Z.geb_leb in Hge. apply Z.leb_gt in Hge.
    destruct (vec_get_total "m_lastValues" (m_lastValues e) index) as [last ->]; [lia |].
    simpl. destruct last; simpl.
    + exists false. split; [done | lia].
    + destruct (vec_get_total "m_currentValues" (m_currentValues e) index) as [current ->].
      { unfold same_signals in He. unfold vec_size in *. lia. }
      exists current. split; [done | lia].
Qed.

(** In any state, a call that returns has changed the counter only. *)
Lemma hasRisingEdge_frame index e rising e' :
  hasRisingEdge index e = Ok (rising, e') →
  e' = {| m_lastValues := m_lastValues e;
          m_currentValues := m_currentValues e;
          m_edgeCount := int_succ (m_edgeCount e) |}.
Proof.
  unfold hasRisingEdge. simpl.
  destruct (index >=? vec_size (m_lastValues e)); [congruence |].
  destruct (vec_get "m_lastValues" _ _) as [last | |]; simpl; [| done | done].
  destruct last; simpl; [congruence |].
  destruct (vec_get "m_currentValues" _ _) as [current | |]; simpl; [| done | done].
  congruence.
Qed.

End getters.

(** C5. The getters with a side effect change one counter and nothing
    else.  [VOptions::getOption(key)] adds one to [m_accessCount] (in [int]
    arithmetic, so exactly one below [INT_MAX]), leaves [m_options] as it
    was and returns the value mapped to [key], or the empty string when
    there is none.  [EdgeDetector::hasRisingEdge(index)], on a detector
    whose two vectors have the same size, adds one to [m_edgeCount], also
    for an [index] out of range (where it returns false), and leaves
    [m_lastValues] and [m_currentValues] as they were; in any state at
    all, a call that returns has changed nothing but the counter. *)
Theorem getters_bump_one_counter :
  (∀ (key : string) (o : VerilatorStyleBugs.VOptions),
     VerilatorStyleBugs.getOption key o
     = (default "" (VerilatorStyleBugs.m_options o !! key),
        {| VerilatorStyleBugs.m_options := VerilatorStyleBugs.m_options o;
           VerilatorStyleBugs.m_accessCount := int_succ (VerilatorStyleBugs.m_accessCount o) |}))
  ∧ (∀ (index : Z) (e : PrSimulation.EdgeDetector),
       same_signals e → 0 ≤ index →
       ∃ rising : bool,
         PrSimulation.hasRisingEdge index e
         = Ok (rising,
               {| PrSimulation.m_lastValues := PrSimulation.m_lastValues e;
                  PrSimulation.m_currentValues := PrSimulation.m_currentValues e;
                  PrSimulation.m_edgeCount := int_succ (PrSimulation.m_edgeCount e) |})
         ∧ (vec_size (PrSimulation.m_lastValues e) ≤ index → rising = false))
  ∧ (∀ (index : Z) (e e' : PrSimulation.EdgeDetector) (rising : bool),
       PrSimulation.hasRisingEdge index e = Ok (rising, e') →
       e' = {| PrSimulation.m_lastValues := PrSimulation.m_lastValues e;
               PrSimulation.m_currentValues := PrSimulation.m_currentValues e;
               PrSimulation.m_edgeCount := int_succ (PrSimulation.m_edgeCount e) |})
  ∧ (∀ count : Z, INT_MIN ≤ count < INT_MAX → int_succ count = count + 1).
Proof.
  split; [| split; [| split]].
  - intros key o. unfold VerilatorStyleBugs.getOption. simpl.
    by destruct (VerilatorStyleBugs.m_options o !! key).
  - intros index e. apply hasRisingEdge_counts.
  - intros index e e' rising. apply hasRisingEdge_frame.
  - apply int_succ_small.
Qed.

Lemma getters_bump_one_counter_witness :
  (∃ rising : bool,
     PrSimulation.hasRisingEdge 7 (PrSimulation.EdgeDetector_new 3)
     = Ok (rising,
           {| PrSimulation.m_lastValues := [false; false; false];
              PrSimulation.m_currentValues := [false; false; false];
              PrSimulation.m_edgeCount := int_succ 0 |})
     ∧ (vec_size [false; false; false] ≤ 7 → rising = false))
  ∧ int_succ 41 = 41 + 1.
Proof.
  destruct getters_bump_one_counter as (_ & Hedge & _ & Hsucc).
  split.
  - apply (Hedge 7 (PrSimulation.EdgeDetector_new 3)); [reflexivity | lia].
  - apply (Hsucc 41). by vm_compute.
Defined.

(** ** before.cpp: the sums that [main] prints *)

Section before_main.
Import Before.

Lemma main_manager_enough fuel :
  (11 ≤ fuel)%nat →
  main_manager fuel
  = Ok {| processors := [ {| data := one_to_ten; name := "Processor1" |};
                          {| data := one_to_ten; name := "Processor2" |} ] |}.
Proof.
  intros Hfuel. unfold main_manager.
  rewrite (for_loop_more_fuel _ _ _ 11%nat) by (by vm_compute || done).
  reflexivity.
Qed.

Lemma getSum_one_to_ten fuel n :
  (11 ≤ fuel)%nat → getSum fuel {| data := one_to_ten; name := n |} = Ok 55.
Proof.
  intros Hfuel. unfold getSum.
  rewrite (for_loop_more_fuel _ _ _ 11%nat) by (by vm_compute || done).
  reflexivity.
Qed.

End before_main.

(** C6. In before.cpp [main] adds two processors and calls [processData(i)]
    for [i] from 1 through 10: the data of each processor is 1..10,
    [getSum] returns 55 for both, and [main] prints ["Processor1: 55"] and
    ["Processor2: 55"], a line each, and returns 0. *)
Theorem before_main_prints_55 (fuel : nat) :
  (11 ≤ fuel)%nat →
  (∃ manager,
     Before.main_manager fuel = Ok manager
     ∧ Before.data <$> Before.processors manager = [one_to_ten; one_to_ten]
     ∧ Before.getName <$> Before.processors manager = ["Processor1"; "Processor2"]
     ∧ Forall (λ proc, Before.getSum fuel proc = Ok 55) (Before.processors manager))
  ∧ Before.main fuel
    = Ok ("Processor1: 55" +:+ endl +:+ "Processor2: 55" +:+ endl, 0).
Proof.
  intros Hfuel. split.
  - eexists. split; [by apply main_manager_enough |].
    repeat split. repeat constructor; by apply getSum_one_to_ten.
  - unfold Before.main. rewrite main_manager_enough by done.
    unfold Before.printResults. simpl.
    rewrite !getSum_one_to_ten by done. reflexivity.
Qed.

Lemma before_main_prints_55_witness :
  Before.main 11 = Ok ("Processor1: 55" +:+ endl +:+ "Processor2: 55" +:+ endl, 0).
Proof. apply (before_main_prints_55 11). lia. Defined.

(** ** after.cpp against before.cpp: the cached sum *)

Section cached_sum.

Lemma sum_range_for (l : list Z) :
  ∀ sum, for_each (λ x sum, Ok (int_add sum x)) l sum = Ok (foldl int_add sum l).
Proof. induction l as [| x l IH]; intros sum; simpl; [done | apply IH]. Qed.

(** The loop shared by the two versions of [getSum]. *)
Lemma sum_loop (data : list Z) fuel :
  vec_size data ≤ SIZE_MAX → (length data < fuel)%nat →
  for_loop fuel (λ i _, i <? vec_size data) size_succ
    (λ i sum, x ← vec_get "data" data i; Ok (int_add sum x)) 0 0
  = Ok (int_sum data).
Proof.
  intros Hmax Hfuel.
  rewrite (for_loop_below "data" data (λ x sum, Ok (int_add sum x)) size_succ) with (k := O).
  - rewrite drop_0. apply sum_range_for.
  - intros i Hi. apply size_succ_small. lia.
  - lia.
  - lia.
Qed.

Lemma before_getSum p fuel :
  vec_size (Before.data p) ≤ SIZE_MAX → (length (Before.data p) < fuel)%nat →
  Before.getSum fuel p = Ok (int_sum (Before.data p)).
Proof. apply sum_loop. Qed.

Lemma after_getSum p fuel :
  cache_fresh p →
  vec_size (After.data p) ≤ SIZE_MAX → (length (After.data p) < fuel)%nat →
  After.getSum fuel p
  = Ok (int_sum (After.data p),
        {| After.data := After.data p; After.name := After.name p;
           After.cachedSum := Some (int_sum (After.data p)) |}).
Proof.
  intros Hfresh Hmax Hfuel. unfold After.getSum.
  destruct p as [data name [sum |]]; simpl in *.
  - by rewrite (Hfresh sum eq_refl).
  - by rewrite sum_loop.
Qed.

Lemma cache_fresh_new n : cache_fresh (After.DataProcessor_new n).
Proof. intros sum. simpl. done. Qed.

Lemma cache_fresh_addData value p : cache_fresh (After.addData value p).
Proof. intros sum. unfold After.addData. by destruct (After.cachedSum p). Qed.

Lemma after_addData_data value p :
  After.data (After.addData value p) = After.data p ++ [value].
Proof. unfold After.addData. by destruct (After.cachedSum p). Qed.

Lemma cache_fresh_getSum p fuel sum p' :
  cache_fresh p →
  vec_size (After.data p) ≤ SIZE_MAX → (length (After.data p) < fuel)%nat →
  After.getSum fuel p = Ok (sum, p') → cache_fresh p' ∧ After.data p' = After.data p.
Proof.
  intros Hfresh Hmax Hfuel. rewrite after_getSum by done.
  intros [= <- <-]. split; [| done]. intros sum. simpl. congruence.
Qed.

(** A second [getSum] with no [addData] in between answers from the cache. *)
Lemma after_getSum_again p fuel sum p' :
  After.getSum fuel p = Ok (sum, p') → ∀ fuel', After.getSum fuel' p' = Ok (sum, p').
Proof.
  unfold After.getSum. destruct (After.cachedSum p) as [cached |] eqn:Hcache.
  - intros [= <- <-] fuel'. by rewrite Hcache.
  - destruct (for_loop _ _ _ _ _ _) as [loop_sum | |]; simpl; [| done | done].
    intros [= <- <-] fuel'. done.
Qed.

Lemma before_addData_all values :
  ∀ p, Before.data (foldl (λ p value, Before.addData value p) p values)
       = Before.data p ++ values.
Proof.
  induction values as [| value values IH]; intros p; simpl.
  - by rewrite app_nil_r.
  - rewrite IH. simpl. by rewrite <- app_assoc.
Qed.

Lemma after_addData_all values :
  ∀ p, cache_fresh p →
       After.data (foldl (λ p value, After.addData value p) p values)
       = After.data p ++ values
       ∧ cache_fresh (foldl (λ p value, After.addData value p) p values).
Proof.
  induction values as [| value values IH]; intros p Hfresh; simpl.
  - by rewrite app_nil_r.
  - destruct (IH (After.addData value p)) as [-> ?]; [apply cache_fresh_addData |].
    rewrite after_addData_data. by rewrite <- app_assoc.
Qed.

(** A client observes the same sums on the two versions. *)
Lemma runs_agree calls :
  ∀ b a fuel,
    same_data b a → cache_fresh a →
    vec_size (After.data a) + Z.of_nat (additions calls) ≤ SIZE_MAX →
    (length (After.data a) + additions calls < fuel)%nat →
    ∃ sums, run_before fuel calls b = Ok sums ∧ run_after fuel calls a = Ok sums.
Proof.
  induction calls as [| [value |] calls IH]; intros b a fuel Hdata Hfresh Hmax Hfuel; simpl in *.
  - by eexists.
  - apply IH.
    + unfold same_data in *. rewrite after_addData_data. simpl. by rewrite Hdata.
    + apply cache_fresh_addData.
    + rewrite after_addData_data, vec_size_snoc. lia.
    + rewrite after_addData_data, length_app. simpl. lia.
  - rewrite before_getSum by (rewrite Hdata; lia).
    rewrite after_getSum by (done || lia). simpl.
    destruct (IH b {| After.data := After.data a; After.name := After.name a;
                      After.cachedSum := Some (int_sum (After.data a)) |} fuel)
      as (sums & Hb & Ha).
    + done.
    + intros sum. simpl. congruence.
    + simpl. lia.
    + simpl. lia.
    + rewrite Hb, Ha. simpl. rewrite Hdata. by eexists.
Qed.

End cached_sum.

(** C7. The cached [DataProcessor] of after.cpp returns the sums of the one
    of before.cpp.  A client that calls [addData] and [getSum] in any order
    on a new processor observes the same integers on the two versions; in
    particular after any sequence of [addData] calls the two [getSum]
    return the same integer.  The cache is never stale: [addData] clears
    it, and what [getSum] leaves in it is the sum of the data.  A second
    [getSum] with no [addData] in between returns what the first returned.
    The number of [addData] calls is one a [size_t] can hold, and the fuel
    covers the data. *)
Theorem cached_getSum_agrees :
  (∀ (n : string) (calls : list call) (fuel : nat),
     Z.of_nat (additions calls) ≤ SIZE_MAX → (additions calls < fuel)%nat →
     ∃ sums,
       run_before fuel calls (Before.DataProcessor_new n) = Ok sums
       ∧ run_after fuel calls (After.DataProcessor_new n) = Ok sums)
  ∧ (∀ (n : string) (values : list Z) (fuel : nat),
       vec_size values ≤ SIZE_MAX → (length values < fuel)%nat →
       ∃ sum p',
         Before.getSum fuel (foldl (λ p value, Before.addData value p)
                               (Before.DataProcessor_new n) values) = Ok sum
         ∧ After.getSum fuel (foldl (λ p value, After.addData value p)
                                (After.DataProcessor_new n) values) = Ok (sum, p'))
  ∧ (∀ (n : string), cache_fresh (After.DataProcessor_new n))
  ∧ (∀ (value : Z) (p : After.DataProcessor),
       After.cachedSum (After.addData value p) = None
       ∧ cache_fresh (After.addData value p))
  ∧ (∀ (p p' : After.DataProcessor) (fuel : nat) (sum : Z),
       cache_fresh p →
       vec_size (After.data p) ≤ SIZE_MAX → (length (After.data p) < fuel)%nat →
       After.getSum fuel p = Ok (sum, p') → cache_fresh p')
  ∧ (∀ (p p' : After.DataProcessor) (fuel fuel' : nat) (sum : Z),
       After.getSum fuel p = Ok (sum, p') → After.getSum fuel' p' = Ok (sum, p')).
Proof.
  split; [| split; [| split; [| split; [| split]]]].
  - intros n calls fuel Hmax Hfuel.
    apply runs_agree; unfold vec_size; simpl; [done | apply cache_fresh_new | lia | lia].
  - intros n values fuel Hmax Hfuel.
    pose proof (before_addData_all values (Before.DataProcessor_new n)) as Hb.
    destruct (after_addData_all values (After.DataProcessor_new n) (cache_fresh_new n))
      as [Ha Hfresh].
    simpl in Hb, Ha.
    eexists _, _. split.
    + apply before_getSum; by rewrite Hb.
    + rewrite after_getSum by (by rewrite ?Ha). by rewrite Ha, Hb.
  - apply cache_fresh_new.
  - intros value p. split; [| apply cache_fresh_addData].
    unfold After.addData. by destruct (After.cachedSum p) eqn:Hcache.
  - intros p p' fuel sum Hfresh Hmax Hfuel Hsum.
    by destruct (cache_fresh_getSum p fuel sum p').
  - intros p p' fuel fuel' sum Hsum. by apply (after_getSum_again p fuel).
Qed.

Lemma cached_getSum_agrees_witness :
  ∃ sums,
    run_before 3 [AddData 1; GetSum; GetSum; AddData 2; GetSum]
      (Before.DataProcessor_new "Processor1") = Ok sums
    ∧ run_after 3 [AddData 1; GetSum; GetSum; AddData 2; GetSum]
        (After.DataProcessor_new "Processor1") = Ok sums.
Proof.
  destruct cached_getSum_agrees as (Hruns & _).
  apply (Hruns "Processor1" [AddData 1; GetSum; GetSum; AddData 2; GetSum] 3%nat).
  - by vm_compute.
  - simpl. lia.
Defined.

(** ** The ring buffer *)

Section ring_buffer.
Import PrSimulation.

Lemma int_wrap_size_wrap z : int_wrap (size_wrap z) = int_wrap z.
Proof.
  unfold int_wrap, size_wrap. f_equal.
  rewrite (Z.div_mod z (2 ^ 64)) at 2 by lia.
  replace (2 ^ 64 * (z `div` 2 ^ 64) + z `mod` 2 ^ 64 + 2 ^ 31)
    with (z `mod` 2 ^ 64 + 2 ^ 31 + (2 ^ 32 * (z `div` 2 ^ 64)) * 2 ^ 32) by lia.
  by rewrite Z_mod_plus_full.
Qed.

Lemma size_wrap_add_l a b : size_wrap (size_wrap a + b) = size_wrap (a + b).
Proof. unfold size_wrap. apply Zplus_mod_idemp_l. Qed.

(** A sum or difference formed in [size_t] and converted to [int]. *)
Lemma int_of_size_add a b : int_of_size (size_wrap (size_of_int a + b)) = int_wrap (a + b).
Proof.
  unfold int_of_size, size_of_int. by rewrite size_wrap_add_l, int_wrap_size_wrap.
Qed.

Lemma int_of_size_sub a b : int_of_size (size_wrap (size_of_int a - b)) = int_wrap (a - b).
Proof. apply (int_of_size_add a (- b)). Qed.

(** The compound assignments of [read] on [int] and [size_t] come to
    additions on [int]. *)
Lemma read_index_int offset s :
  read_index offset s
  = let idx := int_wrap (int_wrap (m_writeIndex s) + offset) in
    let idx := if idx <? 0 then int_wrap (idx + m_capacity s) else idx in
    if idx >=? int_wrap (m_capacity s) then int_wrap (idx - m_capacity s) else idx.
Proof.
  unfold read_index, int_add. cbv zeta.
  rewrite int_of_size_add.
  destruct (_ <? 0); by rewrite int_of_size_sub.
Qed.

Lemma buffer_inv_new capacity :
  0 < capacity ≤ SIZE_MAX → buffer_inv (SignalBuffer_new capacity).
Proof.
  intros Hc. unfold buffer_inv. simpl.
  rewrite vec_size_replicate by lia. lia.
Qed.

Lemma buffer_inv_write value s :
  buffer_inv s →
  ∃ s', write value s = Ok s' ∧ buffer_inv s' ∧ m_capacity s' = m_capacity s.
Proof.
  intros (Hsize & Hmax & Hindex). unfold write.
  rewrite vec_set_inside by lia. simpl.
  rewrite size_succ_small by lia.
  destruct (m_writeIndex s + 1 >=? m_capacity s) eqn:Hwrap;
    rewrite Z.geb_leb in Hwrap; eexists; (split; [done |]);
    unfold buffer_inv; simpl; rewrite vec_size_insert.
  - repeat split; lia.
  - apply Z.leb_gt in Hwrap. repeat split; lia.
Qed.

Lemma read_index_in_range offset s :
  buffer_inv s → m_capacity s ≤ 2 ^ 30 →
  - m_capacity s ≤ offset < m_capacity s →
  0 ≤ read_index offset s < m_capacity s.
Proof.
  intros (Hsize & Hmax & Hindex) Hsmall Hoffset.
  rewrite read_index_int. cbv zeta.
  rewrite (int_wrap_small (m_writeIndex s)) by (unfold INT_MIN, INT_MAX; lia).
  rewrite (int_wrap_small (m_writeIndex s + offset)) by (unfold INT_MIN, INT_MAX; lia).
  rewrite (int_wrap_small (m_capacity s)) by (unfold INT_MIN, INT_MAX; lia).
  destruct (m_writeIndex s + offset <? 0) eqn:Hneg.
  - apply Z.ltb_lt in Hneg.
    rewrite (int_wrap_small (m_writeIndex s + offset + m_capacity s))
      by (unfold INT_MIN, INT_MAX; lia).
    rewrite Z.geb_leb, (proj2 (Z.leb_gt _ _)) by lia. lia.
  - apply Z.ltb_ge in Hneg.
    destruct (m_writeIndex s + offset >=? m_capacity s) eqn:Hover;
      rewrite Z.geb_leb in Hover.
    + apply Z.leb_le in Hover.
      rewrite int_wrap_small by (unfold INT_MIN, INT_MAX; lia). lia.
    + apply Z.leb_gt in Hover. lia.
Qed.

Lemma read_in_bounds offset s :
  buffer_inv s → m_capacity s ≤ 2 ^ 30 →
  - m_capacity s ≤ offset < m_capacity s →
  ∃ x, read offset s = Ok x.
Proof.
  intros Hinv Hsmall Hoffset.
  pose proof (read_index_in_range offset s Hinv Hsmall Hoffset) as Hidx.
  destruct Hinv as (Hsize & Hmax & Hindex). unfold read, size_of_int.
  rewrite size_wrap_small by lia.
  apply vec_get_total. lia.
Qed.

Lemma write_times_zero_from (n : nat) :
  ∀ (k : nat) capacity,
    Z.of_nat k + Z.of_nat n < capacity ≤ SIZE_MAX →
    write_times n 0%float
      {| m_buffer := replicate (Z.to_nat capacity) 0%float;
         m_writeIndex := Z.of_nat k;
         m_capacity := capacity;
         m_wrapped := false |}
    = Ok {| m_buffer := replicate (Z.to_nat capacity) 0%float;
            m_writeIndex := Z.of_nat (k + n);
            m_capacity := capacity;
            m_wrapped := false |}.
Proof.
  induction n as [| n IH]; intros k capacity Hk; simpl.
  - by rewrite Nat.add_0_r.
  - unfold write at 1. simpl.
    rewrite vec_set_inside by (rewrite vec_size_replicate; lia). simpl.
    rewrite size_succ_small by lia.
    rewrite Z.geb_leb, (proj2 (Z.leb_gt _ _)) by lia.
    rewrite insert_replicate.
    replace (Z.of_nat k + 1) with (Z.of_nat (S k)) by lia.
    rewrite bind_Ok, IH by lia. do 2 f_equal. lia.
Qed.

Lemma write_times_zero (n capacity : Z) :
  0 ≤ n < capacity → capacity ≤ SIZE_MAX →
  write_times (Z.to_nat n) 0%float (SignalBuffer_new capacity)
  = Ok {| m_buffer := replicate (Z.to_nat capacity) 0%float;
          m_writeIndex := n;
          m_capacity := capacity;
          m_wrapped := false |}.
Proof.
  intros Hn Hmax. unfold SignalBuffer_new.
  change 0 with (Z.of_nat 0) at 1.
  rewrite write_times_zero_from by lia.
  do 2 f_equal. lia.
Qed.

(** [deep_buffer] is what [2^30] writes make of a new buffer. *)
Lemma deep_buffer_reached :
  write_times (Z.to_nat (2 ^ 30)) 0%float (SignalBuffer_new (2 ^ 30 + 1)) = Ok deep_buffer.
Proof.
  assert (Hn : 0 ≤ 2 ^ 30 < 2 ^ 30 + 1) by lia.
  assert (Hmax : 2 ^ 30 + 1 ≤ SIZE_MAX) by (unfold SIZE_MAX; lia).
  exact (write_times_zero (2 ^ 30) (2 ^ 30 + 1) Hn Hmax).
Qed.

Lemma buffer_inv_deep_buffer : buffer_inv deep_buffer.
Proof.
  unfold buffer_inv, deep_buffer. cbn [m_buffer m_capacity m_writeIndex].
  rewrite vec_size_replicate by lia. unfold SIZE_MAX. lia.
Qed.

End ring_buffer.

(** C8, as the code has it.  For every [SignalBuffer] made with a capacity
    [c] that a [size_t] holds and [c > 0], [0 <= m_writeIndex < c] holds at
    first and after every [write], which stays inside the buffer.  When
    moreover [c <= 2^30], [read(offset)] computes an index in [[0, c)] for
    every [offset] with [-c <= offset < c], and its access is inside the
    buffer. *)
Theorem signal_buffer_index_in_range :
  (∀ c : Z, 0 < c ≤ SIZE_MAX →
     buffer_inv (PrSimulation.SignalBuffer_new c)
     ∧ PrSimulation.m_capacity (PrSimulation.SignalBuffer_new c) = c
     ∧ 0 ≤ PrSimulation.m_writeIndex (PrSimulation.SignalBuffer_new c) < c)
  ∧ (∀ (value : float) (s : PrSimulation.SignalBuffer),
       buffer_inv s →
       ∃ s', PrSimulation.write value s = Ok s'
             ∧ buffer_inv s'
             ∧ PrSimulation.m_capacity s' = PrSimulation.m_capacity s)
  ∧ (∀ (offset : Z) (s : PrSimulation.SignalBuffer),
       buffer_inv s → PrSimulation.m_capacity s ≤ 2 ^ 30 →
       - PrSimulation.m_capacity s ≤ offset < PrSimulation.m_capacity s →
       0 ≤ PrSimulation.read_index offset s < PrSimulation.m_capacity s
       ∧ ∃ x, PrSimulation.read offset s = Ok x).
Proof.
  split; [| split].
  - intros c Hc. split; [by apply buffer_inv_new |]. simpl. lia.
  - intros value s. apply buffer_inv_write.
  - intros offset s Hinv Hsmall Hoffset. split.
    + by apply read_index_in_range.
    + by apply read_in_bounds.
Qed.

Lemma signal_buffer_index_in_range_witness :
  (0 ≤ PrSimulation.read_index (-4) (PrSimulation.SignalBuffer_new 4) < 4
   ∧ ∃ x, PrSimulation.read (-4) (PrSimulation.SignalBuffer_new 4) = Ok x)
  ∧ (0 ≤ PrSimulation.read_index 3 (PrSimulation.SignalBuffer_new 4) < 4
     ∧ ∃ x, PrSimulation.read 3 (PrSimulation.SignalBuffer_new 4) = Ok x).
Proof.
  destruct signal_buffer_index_in_range as (Hnew & _ & Hread).
  destruct (Hnew 4) as (Hinv & _ & _); [by vm_compute |].
  split.
  - apply (Hread (-4) (PrSimulation.SignalBuffer_new 4)); [exact Hinv | simpl; lia | simpl; lia].
  - apply (Hread 3 (PrSimulation.SignalBuffer_new 4)); [exact Hinv | simpl; lia | simpl; lia].
Defined.

(** C8 fails as stated: a buffer of capacity [2^30 + 1] after [2^30]
    writes meets the invariant and [offset = 2^30] lies in [[-c, c)], but
    [static_cast<int>(m_writeIndex) + offset] is [2^31], which no [int]
    holds; with the wrapped sum [read(offset)] computes the index
    [-2^30 + 1] and accesses outside the buffer. *)
Lemma signal_buffer_read_leaves_buffer :
  write_times (Z.to_nat (2 ^ 30)) 0%float (PrSimulation.SignalBuffer_new (2 ^ 30 + 1))
  = Ok deep_buffer
  ∧ buffer_inv deep_buffer
  ∧ PrSimulation.m_capacity deep_buffer = 2 ^ 30 + 1
  ∧ - (2 ^ 30 + 1) ≤ 2 ^ 30 < 2 ^ 30 + 1
  ∧ INT_MAX < int_of_size (PrSimulation.m_writeIndex deep_buffer) + 2 ^ 30
  ∧ PrSimulation.read_index (2 ^ 30) deep_buffer = - 2 ^ 30 + 1
  ∧ PrSimulation.read (2 ^ 30) deep_buffer
    = Fault (OutOfBounds "m_buffer" (2 ^ 64 - 2 ^ 30 + 1)).
Proof.
  assert (Hidx : PrSimulation.read_index (2 ^ 30) deep_buffer = - 2 ^ 30 + 1).
  { unfold PrSimulation.read_index, deep_buffer.
    cbn [PrSimulation.m_writeIndex PrSimulation.m_capacity]. by vm_compute. }
  split; [apply deep_buffer_reached |].
  split; [apply buffer_inv_deep_buffer |].
  split; [reflexivity |].
  split; [lia |].
  split; [unfold deep_buffer; cbn [PrSimulation.m_writeIndex]; by vm_compute |].
  split; [exact Hidx |].
  unfold PrSimulation.read. rewrite Hidx.
  change (size_of_int (- 2 ^ 30 + 1)) with (2 ^ 64 - 2 ^ 30 + 1).
  apply vec_get_outside.
  unfold deep_buffer. cbn [PrSimulation.m_buffer].
  rewrite vec_size_replicate by lia. lia.
Qed.

(** ** verilator_style_bugs_clean.cpp *)

Section clean_file.
Import VerilatorStyleBugsClean.

Lemma clean_clearAllBits_past_end n fuel :
  vec_size (m_value n) ≤ SIZE_MAX → (length (m_value n) < fuel)%nat →
  clearAllBits fuel n = Fault (OutOfBounds "m_value" (vec_size (m_value n))).
Proof.
  intros Hmax Hfuel. unfold clearAllBits.
  apply (clear_loop_faults "m_value" m_value (λ v n, mkVNumber v (m_width n))) with (k := O);
    [done | done | lia | lia].
Qed.

Lemma clean_getAverage_empty s :
  getAverage s = Fault DivByZero ↔ m_samples s = [].
Proof.
  unfold getAverage.
  destruct (float_range_for_total (m_samples s) 0%float) as [sum ->]. simpl.
  unfold double_div, vec_size.
  destruct (m_samples s) as [| x samples]; simpl; [done |].
  split; discriminate.
Qed.

Lemma clean_getAverage_nonempty s :
  m_samples s ≠ [] → ∃ average, getAverage s = Ok average.
Proof.
  intros Hne. unfold getAverage.
  destruct (float_range_for_total (m_samples s) 0%float) as [sum ->]. simpl.
  unfold double_div, vec_size.
  destruct (m_samples s) as [| x samples]; simpl; [done | by eexists].
Qed.

Lemma clean_isValidRange_or value min max :
  isValidRange value min max = true ↔ min ≤ value ∨ value ≤ max.
Proof. unfold isValidRange. rewrite orb_true_iff, Z.geb_le, Z.leb_le. done. Qed.

End clean_file.

(** C4, as the code has it.  verilator_style_bugs_clean.cpp keeps the
    defects of its pair.  The run of its [clearAllBits] ends in the access
    to [m_value[m_value.size()]].  Its [getAverage] divides by zero exactly
    when no sample has been added: after [addSample] it returns a value,
    and a new [VStatistics] is without samples.  Its [isValidRange] is true
    exactly when [min <= value] or [value <= max], so whenever
    [min <= value <= max]. *)
Theorem clean_file_keeps_the_defects :
  (∀ (n : VerilatorStyleBugsClean.VNumber) (fuel : nat),
     vec_size (VerilatorStyleBugsClean.m_value n) ≤ SIZE_MAX →
     (length (VerilatorStyleBugsClean.m_value n) < fuel)%nat →
     VerilatorStyleBugsClean.clearAllBits fuel n
     = Fault (OutOfBounds "m_value" (vec_size (VerilatorStyleBugsClean.m_value n))))
  ∧ (∀ s : VerilatorStyleBugsClean.VStatistics,
       VerilatorStyleBugsClean.getAverage s = Fault DivByZero
       ↔ VerilatorStyleBugsClean.m_samples s = [])
  ∧ (∀ (value : float) (s : VerilatorStyleBugsClean.VStatistics),
       ∃ average,
         VerilatorStyleBugsClean.getAverage (VerilatorStyleBugsClean.addSample value s)
         = Ok average)
  ∧ (∀ value min max : Z,
       VerilatorStyleBugsClean.isValidRange value min max = true
       ↔ min ≤ value ∨ value ≤ max)
  ∧ (∀ value min max : Z,
       min ≤ value ∧ value ≤ max →
       VerilatorStyleBugsClean.isValidRange value min max = true).
Proof.
  split; [| split; [| split; [| split]]].
  - intros n fuel. apply clean_clearAllBits_past_end.
  - apply clean_getAverage_empty.
  - intros value s. apply clean_getAverage_nonempty.
    unfold VerilatorStyleBugsClean.addSample. simpl.
    by destruct (VerilatorStyleBugsClean.m_samples s).
  - apply clean_isValidRange_or.
  - intros value min max Hin. apply clean_isValidRange_or. lia.
Qed.

Lemma clean_file_keeps_the_defects_witness :
  VerilatorStyleBugsClean.clearAllBits 3 (VerilatorStyleBugsClean.VNumber_new 64)
  = Fault (OutOfBounds "m_value" 2)
  ∧ VerilatorStyleBugsClean.isValidRange 15 10 20 = true.
Proof.
  destruct clean_file_keeps_the_defects as (Hclear & _ & _ & _ & Hrange).
  split.
  - apply (Hclear (VerilatorStyleBugsClean.VNumber_new 64) 3%nat); [by vm_compute | simpl; lia].
  - apply (Hrange 15 10 20). lia.
Defined.

(** C4 fails as stated: in verilator_style_bugs_clean.cpp [clearAllBits] on
    a 64-bit number, of two words, accesses index 2; [getAverage] after no
    [addSample] at all divides by zero; [isValidRange(5, 10, 20)] and
    [isValidRange(25, 10, 20)] are true. *)
Lemma clean_file_is_not_clean :
  (vec_size (VerilatorStyleBugsClean.m_value (VerilatorStyleBugsClean.VNumber_new 64)) = 2
   ∧ VerilatorStyleBugsClean.clearAllBits 3 (VerilatorStyleBugsClean.VNumber_new 64)
     = Fault (OutOfBounds "m_value" 2))
  ∧ VerilatorStyleBugsClean.getAverage
      (foldl (λ s value, VerilatorStyleBugsClean.addSample value s)
         VerilatorStyleBugsClean.VStatistics_new [])
    = Fault DivByZero
  ∧ (VerilatorStyleBugsClean.isValidRange 5 10 20 = true ∧ ¬ (10 ≤ 5 ∧ 5 ≤ 20))
  ∧ (VerilatorStyleBugsClean.isValidRange 25 10 20 = true ∧ ¬ (10 ≤ 25 ∧ 25 ≤ 20)).
Proof.
  split; [by vm_compute |].
  split; [reflexivity |].
  split; (split; [reflexivity | lia]).
Qed.

(** * Further properties of the same files *)

(** ** More on machine integers and strings *)

Lemma int_wrap_add_l a b : int_wrap (int_wrap a + b) = int_wrap (a + b).
Proof.
  unfold int_wrap. f_equal.
  replace ((a + 2 ^ 31) `mod` 2 ^ 32 - 2 ^ 31 + b + 2 ^ 31)
    with ((a + 2 ^ 31) `mod` 2 ^ 32 + b) by lia.
  rewrite Zplus_mod_idemp_l. f_equal. lia.
Qed.

Lemma int_succ_times (k : nat) count :
  INT_MIN ≤ count ≤ INT_MAX →
  Nat.iter k int_succ count = int_wrap (count + Z.of_nat k).
Proof.
  intros Hcount. induction k as [| k IH]; simpl.
  - rewrite Z.add_0_r. by rewrite int_wrap_small.
  - rewrite IH. unfold int_succ. rewrite int_wrap_add_l. f_equal. lia.
Qed.

Lemma string_app_assoc (a b c : string) : (a +:+ b) +:+ c = a +:+ (b +:+ c).
Proof.
  induction a as [| x a IH]; [done |].
  change (String x ((a +:+ b) +:+ c) = String x (a +:+ (b +:+ c))). by rewrite IH.
Qed.

Lemma string_app_nil_r (a : string) : a +:+ "" = a.
Proof.
  induction a as [| x a IH]; [done |].
  change (String x (a +:+ "") = String x a). by rewrite IH.
Qed.

Lemma for_each_snoc {A St} (g : A → St → outcome St) (l : list A) (x : A) :
  ∀ s, for_each g (l ++ [x]) s = (for_each g l s ≫= g x).
Proof.
  induction l as [| y l IH]; intros s; simpl.
  - by destruct (g x s).
  - destruct (g y s) as [s' | f |]; simpl; [apply IH | done | done].
Qed.

Lemma float_range_for_sum (samples : list float) :
  ∀ sum, for_each (λ x sum, Ok (PrimFloat.add sum x)) samples sum
         = Ok (foldl PrimFloat.add sum samples).
Proof. induction samples as [| x samples IH]; intros sum; simpl; [done | apply IH]. Qed.

(** ** [VOptions]: what is set is what is got *)

Lemma getOptions_state keys :
  ∀ o, INT_MIN ≤ VerilatorStyleBugs.m_accessCount o ≤ INT_MAX →
       VerilatorStyleBugs.m_options (getOptions keys o) = VerilatorStyleBugs.m_options o
       ∧ VerilatorStyleBugs.m_accessCount (getOptions keys o)
         = int_wrap (VerilatorStyleBugs.m_accessCount o + Z.of_nat (length keys)).
Proof.
  unfold getOptions.
  induction keys as [| key keys IH]; intros o Hcount; simpl.
  - split; [done |]. rewrite Z.add_0_r. by rewrite int_wrap_small.
  - destruct (IH (VerilatorStyleBugs.getOption key o).2) as [-> ->].
    + unfold VerilatorStyleBugs.getOption. simpl.
      destruct (VerilatorStyleBugs.m_options o !! key); simpl; apply int_wrap_range.
    + unfold VerilatorStyleBugs.getOption. simpl.
      destruct (VerilatorStyleBugs.m_options o !! key); simpl;
        (split; [done |]); unfold int_succ; rewrite int_wrap_add_l; f_equal; lia.
Qed.

(** X1. What [setOption] stores, [getOption] returns: after
    [setOption(key, value)], [getOption(key)] returns [value]; the value
    found under any other key is what it was before; [setOption] does not
    touch the access counter; and a key never set gives the empty string. *)
Theorem setOption_then_getOption (key value : string) (o : VerilatorStyleBugs.VOptions) :
  (VerilatorStyleBugs.getOption key (VerilatorStyleBugs.setOption key value o)).1 = value
  ∧ (∀ other : string,
       other ≠ key →
       (VerilatorStyleBugs.getOption other (VerilatorStyleBugs.setOption key value o)).1
       = (VerilatorStyleBugs.getOption other o).1)
  ∧ VerilatorStyleBugs.m_accessCount (VerilatorStyleBugs.setOption key value o)
    = VerilatorStyleBugs.m_accessCount o
  ∧ (VerilatorStyleBugs.getOption key VerilatorStyleBugs.VOptions_new).1 = "".
Proof.
  split; [| split; [| split]].
  - unfold VerilatorStyleBugs.getOption, VerilatorStyleBugs.setOption. simpl.
    by rewrite lookup_insert_eq.
  - intros other Hother.
    unfold VerilatorStyleBugs.getOption, VerilatorStyleBugs.setOption. simpl.
    rewrite lookup_insert_ne by done.
    by destruct (VerilatorStyleBugs.m_options o !! other).
  - done.
  - done.
Qed.

Lemma setOption_then_getOption_witness :
  (VerilatorStyleBugs.getOption "top"
     (VerilatorStyleBugs.setOption "trace" "on" VerilatorStyleBugs.VOptions_new)).1
  = (VerilatorStyleBugs.getOption "top" VerilatorStyleBugs.VOptions_new).1.
Proof.
  destruct (setOption_then_getOption "trace" "on" VerilatorStyleBugs.VOptions_new)
    as (_ & Hother & _).
  apply (Hother "top"). discriminate.
Defined.

(** X2. The side effect of the getter adds up: [k] calls of [getOption],
    whatever the keys, leave [m_options] as it was and move the counter
    from [c] to [c + k] in [int] arithmetic; on a new [VOptions] the
    counter is the number of calls, up to [INT_MAX] of them. *)
Theorem getOption_counts_calls (keys : list string) (o : VerilatorStyleBugs.VOptions) :
  INT_MIN ≤ VerilatorStyleBugs.m_accessCount o ≤ INT_MAX →
  VerilatorStyleBugs.m_options (getOptions keys o) = VerilatorStyleBugs.m_options o
  ∧ VerilatorStyleBugs.m_accessCount (getOptions keys o)
    = int_wrap (VerilatorStyleBugs.m_accessCount o + Z.of_nat (length keys))
  ∧ (VerilatorStyleBugs.m_accessCount o + Z.of_nat (length keys) ≤ INT_MAX →
     VerilatorStyleBugs.m_accessCount (getOptions keys o)
     = VerilatorStyleBugs.m_accessCount o + Z.of_nat (length keys)).
Proof.
  intros Hcount. destruct (getOptions_state keys o Hcount) as [Hoptions Hcalls].
  split; [done | split; [done |]].
  intros Hfits. rewrite Hcalls. apply int_wrap_small. lia.
Qed.

Lemma getOption_counts_calls_witness :
  VerilatorStyleBugs.m_accessCount
    (getOptions ["top"; "trace"; "top"] VerilatorStyleBugs.VOptions_new) = 0 + 3.
Proof.
  destruct (getOption_counts_calls ["top"; "trace"; "top"] VerilatorStyleBugs.VOptions_new)
    as (_ & _ & Hcalls); [by vm_compute |].
  apply Hcalls. by vm_compute.
Defined.

(** ** [DelayCalculator]: lookups and the running total *)

Section delays.
Import PrSimulation.

Lemma addDelay_index signal delay d :
  vec_size (m_delays d) ≤ INT_MAX →
  m_signalMap (addDelay signal delay d) !! signal = Some (vec_size (m_delays d)).
Proof.
  intros Hsize. pose proof (vec_size_nonneg (m_delays d)) as Hpos.
  unfold addDelay. simpl. rewrite lookup_insert_eq, vec_size_snoc. f_equal.
  replace (vec_size (m_delays d) + 1 - 1) with (vec_size (m_delays d)) by lia.
  unfold INT_MAX in Hsize.
  rewrite size_wrap_small by (unfold SIZE_MAX; lia).
  apply int_wrap_small. unfold INT_MIN, INT_MAX. lia.
Qed.

Lemma getSignalDelay_added signal delay d :
  vec_size (m_delays d) ≤ INT_MAX →
  getSignalDelay signal (addDelay signal delay d) = Ok delay.
Proof.
  intros Hsize. pose proof (vec_size_nonneg (m_delays d)) as Hpos.
  unfold getSignalDelay. rewrite addDelay_index by done.
  unfold size_of_int. unfold INT_MAX in Hsize.
  rewrite size_wrap_small by (unfold SIZE_MAX; lia).
  unfold vec_size, addDelay. simpl. apply vec_get_inside.
  rewrite lookup_app_r by lia. by rewrite Nat.sub_diag.
Qed.

Lemma getSignalDelay_other signal other delay d :
  signalMap_valid d → other ≠ signal →
  getSignalDelay other (addDelay signal delay d) = getSignalDelay other d.
Proof.
  intros Hd Hother. unfold getSignalDelay, addDelay. simpl.
  rewrite lookup_insert_ne by done.
  destruct (m_signalMap d !! other) as [idx |] eqn:Hidx; [| done].
  destruct (Hd _ _ Hidx) as [Hin Hint]. unfold INT_MAX in Hint.
  unfold size_of_int. rewrite size_wrap_small by (unfold SIZE_MAX; lia).
  destruct (lookup_lt_is_Some_2 (m_delays d) (Z.to_nat idx)) as [x Hx].
  { unfold vec_size in Hin. lia. }
  rewrite <- (Z2Nat.id idx) by lia.
  rewrite (vec_get_inside _ _ _ x), (vec_get_inside _ _ _ x); [done | done |].
  by apply lookup_app_l_Some.
Qed.

Lemma total_is_sum_new : total_is_sum DelayCalculator_new.
Proof. done. Qed.

Lemma total_is_sum_addDelay signal delay d :
  total_is_sum d → total_is_sum (addDelay signal delay d).
Proof.
  unfold total_is_sum, addDelay. simpl. intros ->. by rewrite foldl_app.
Qed.

Lemma addDelays_state delays :
  ∀ d, total_is_sum d →
       total_is_sum (addDelays delays d)
       ∧ m_delays (addDelays delays d) = m_delays d ++ delays.*2.
Proof.
  unfold addDelays.
  induction delays as [| [signal delay] delays IH]; intros d Hd; simpl.
  - by rewrite app_nil_r.
  - destruct (IH (addDelay signal delay d)) as [Htotal ->].
    + by apply total_is_sum_addDelay.
    + split; [done |]. simpl. by rewrite <- app_assoc.
Qed.

Lemma getAverageDelay_total d :
  total_is_sum d →
  getAverageDelay d = double_div (m_totalDelay d) (vec_size (m_delays d)).
Proof.
  intros Hd. unfold getAverageDelay. rewrite float_range_for_sum. simpl. by rewrite Hd.
Qed.

End delays.

(** X3. The delay of a signal is the one last added for it: after
    [addDelay(signal, delay)], [getSignalDelay(signal)] returns [delay], and
    the answer for every other signal is what it was; a signal never added
    gives -1.  The calculator holds at most [INT_MAX] delays and its map
    indexes them. *)
Theorem getSignalDelay_after_addDelay (signal : string) (delay : float)
    (d : PrSimulation.DelayCalculator) :
  signalMap_valid d → vec_size (PrSimulation.m_delays d) ≤ INT_MAX →
  PrSimulation.getSignalDelay signal (PrSimulation.addDelay signal delay d) = Ok delay
  ∧ (∀ other : string,
       other ≠ signal →
       PrSimulation.getSignalDelay other (PrSimulation.addDelay signal delay d)
       = PrSimulation.getSignalDelay other d)
  ∧ (∀ missing : string,
       PrSimulation.m_signalMap d !! missing = None →
       PrSimulation.getSignalDelay missing d = Ok (-1)%float).
Proof.
  intros Hd Hsize. split; [| split].
  - by apply getSignalDelay_added.
  - intros other Hother. by apply getSignalDelay_other.
  - intros missing Hmissing. unfold PrSimulation.getSignalDelay. by rewrite Hmissing.
Qed.

Lemma getSignalDelay_after_addDelay_witness :
  PrSimulation.getSignalDelay "clk"
    (PrSimulation.addDelay "clk" 3%float
       (PrSimulation.addDelay "clk" 2%float PrSimulation.DelayCalculator_new))
  = Ok 3%float.
Proof.
  apply (getSignalDelay_after_addDelay "clk" 3%float
           (PrSimulation.addDelay "clk" 2%float PrSimulation.DelayCalculator_new)).
  - apply (bool_decide_unpack _). by vm_compute.
  - by vm_compute.
Defined.

(** X4. On a calculator filled by [addDelay] alone, [m_totalDelay] is, bit
    for bit, the sum that [getAverageDelay] forms again from [m_delays]: the
    average is [m_totalDelay] over the number of delays, and the division
    is by zero exactly when no delay has been added. *)
Theorem getAverageDelay_of_running_total (delays : list (string * float)) :
  PrSimulation.getAverageDelay (addDelays delays PrSimulation.DelayCalculator_new)
  = double_div
      (PrSimulation.m_totalDelay (addDelays delays PrSimulation.DelayCalculator_new))
      (Z.of_nat (length delays))
  ∧ (PrSimulation.getAverageDelay (addDelays delays PrSimulation.DelayCalculator_new)
     = Fault DivByZero
     ↔ delays = []).
Proof.
  destruct (addDelays_state delays PrSimulation.DelayCalculator_new total_is_sum_new)
    as [Htotal Hdelays].
  assert (Hsize : vec_size (PrSimulation.m_delays
                              (addDelays delays PrSimulation.DelayCalculator_new))
                  = Z.of_nat (length delays)).
  { rewrite Hdelays. unfold vec_size. simpl. by rewrite length_fmap. }
  rewrite getAverageDelay_total, Hsize by done. split; [done |].
  rewrite double_div_zero. destruct delays; simpl; [done |]. split; [lia | done].
Qed.

(** ** [EdgeDetector]: edges between two ticks *)

Section edges.
Import PrSimulation.

Lemma hasRisingEdge_value index e last current :
  m_lastValues e !! Z.to_nat index = Some last →
  m_currentValues e !! Z.to_nat index = Some current →
  0 ≤ index →
  ∃ e', hasRisingEdge index e = Ok (negb last && current, e').
Proof.
  intros Hlast Hcurrent Hindex. unfold hasRisingEdge. simpl.
  pose proof (lookup_lt_Some _ _ _ Hlast) as Hlt.
  rewrite Z.geb_leb, (proj2 (Z.leb_gt _ _)) by (unfold vec_size; lia).
  rewrite <- (Z2Nat.id index) by lia.
  rewrite (vec_get_inside _ _ _ _ Hlast). simpl.
  destruct last; simpl; [by eexists |].
  rewrite (vec_get_inside _ _ _ _ Hcurrent). simpl. by eexists.
Qed.

Lemma hasFallingEdge_value index e last current :
  m_lastValues e !! Z.to_nat index = Some last →
  m_currentValues e !! Z.to_nat index = Some current →
  0 ≤ index →
  hasFallingEdge index e = Ok (last && negb current).
Proof.
  intros Hlast Hcurrent Hindex. unfold hasFallingEdge.
  pose proof (lookup_lt_Some _ _ _ Hlast) as Hlt.
  rewrite Z.geb_leb, (proj2 (Z.leb_gt _ _)) by (unfold vec_size; lia).
  rewrite <- (Z2Nat.id index) by lia.
  rewrite (vec_get_inside _ _ _ _ Hlast). simpl.
  destruct last; simpl; [| done].
  by rewrite (vec_get_inside _ _ _ _ Hcurrent).
Qed.

Lemma edges_out_of_range index e :
  vec_size (m_lastValues e) ≤ index →
  hasFallingEdge index e = Ok false ∧ ∃ e', hasRisingEdge index e = Ok (false, e').
Proof.
  intros Hindex. unfold hasFallingEdge, hasRisingEdge. simpl.
  rewrite Z.geb_leb, (proj2 (Z.leb_le _ _)) by done. split; [done | by eexists].
Qed.

End edges.

(** X5. [tick] clears every edge: right after [tick], for every index,
    [hasRisingEdge] and [hasFallingEdge] return false, until a signal is
    updated again. *)
Theorem tick_clears_edges (index : Z) (e : PrSimulation.EdgeDetector) :
  0 ≤ index →
  PrSimulation.hasFallingEdge index (PrSimulation.tick e) = Ok false
  ∧ ∃ e', PrSimulation.hasRisingEdge index (PrSimulation.tick e) = Ok (false, e').
Proof.
  intros Hindex.
  destruct (decide (vec_size (PrSimulation.m_currentValues e) ≤ index)) as [Hout | Hin].
  - by apply edges_out_of_range.
  - destruct (lookup_lt_is_Some_2 (PrSimulation.m_currentValues e) (Z.to_nat index))
      as [current Hcurrent].
    { unfold vec_size in Hin. lia. }
    rewrite (hasFallingEdge_value index _ current current) by done.
    destruct (hasRisingEdge_value index (PrSimulation.tick e) current current)
      as [e' ->]; [done | done | done |].
    split; [| exists e']; by destruct current.
Qed.

Lemma tick_clears_edges_witness :
  PrSimulation.hasFallingEdge 1
    (PrSimulation.tick (PrSimulation.mkEdgeDetector [true; false] [false; true] 0))
  = Ok false
  ∧ ∃ e', PrSimulation.hasRisingEdge 1
            (PrSimulation.tick (PrSimulation.mkEdgeDetector [true; false] [false; true] 0))
          = Ok (false, e').
Proof.
  apply (tick_clears_edges 1 (PrSimulation.mkEdgeDetector [true; false] [false; true] 0)).
  lia.
Defined.

(** X6. [updateSignal] sets one signal and the two edge queries read it
    against the value of the last tick.  On a detector whose vectors have
    the same size, [updateSignal(index, value)] with [index] in range
    stores [value] at [index] only; then [hasRisingEdge(index)] is "was
    false, is true" and [hasFallingEdge(index)] is "was true, is false", so
    the two are never true together.  With [index] out of range
    [updateSignal] changes nothing. *)
Theorem updateSignal_then_edges (index : Z) (value : bool) (e : PrSimulation.EdgeDetector) :
  same_signals e → 0 ≤ index →
  (vec_size (PrSimulation.m_currentValues e) ≤ index →
   PrSimulation.updateSignal index value e = Ok e)
  ∧ (index < vec_size (PrSimulation.m_currentValues e) →
     ∃ e' e'' last,
       PrSimulation.updateSignal index value e = Ok e'
       ∧ PrSimulation.m_currentValues e'
         = <[Z.to_nat index := value]> (PrSimulation.m_currentValues e)
       ∧ PrSimulation.m_lastValues e' = PrSimulation.m_lastValues e
       ∧ PrSimulation.m_edgeCount e' = PrSimulation.m_edgeCount e
       ∧ PrSimulation.m_lastValues e !! Z.to_nat index = Some last
       ∧ PrSimulation.hasRisingEdge index e' = Ok (negb last && value, e'')
       ∧ PrSimulation.hasFallingEdge index e' = Ok (last && negb value)
       ∧ (negb last && value) && (last && negb value) = false).
Proof.
  intros He Hindex. split.
  - intros Hout. unfold PrSimulation.updateSignal.
    by rewrite (proj2 (Z.ltb_ge _ _)).
  - intros Hin. unfold PrSimulation.updateSignal.
    rewrite (proj2 (Z.ltb_lt _ _)) by done.
    rewrite vec_set_inside by lia. simpl.
    destruct (lookup_lt_is_Some_2 (PrSimulation.m_lastValues e) (Z.to_nat index))
      as [last Hlast].
    { unfold same_signals in He. unfold vec_size in Hin. lia. }
    set (e' := {| PrSimulation.m_lastValues := PrSimulation.m_lastValues e;
                  PrSimulation.m_currentValues :=
                    <[Z.to_nat index := value]> (PrSimulation.m_currentValues e);
                  PrSimulation.m_edgeCount := PrSimulation.m_edgeCount e |}).
    assert (Hcurrent : PrSimulation.m_currentValues e' !! Z.to_nat index = Some value).
    { simpl. apply list_lookup_insert_eq. unfold vec_size in Hin. lia. }
    destruct (hasRisingEdge_value index e' last value) as [e'' Hrising]; [done | done | done |].
    exists e', e'', last.
    rewrite Hrising, (hasFallingEdge_value index e' last value) by done.
    repeat split; try done. by destruct last, value.
Qed.

Lemma updateSignal_then_edges_witness :
  ∃ e' e'' last,
    PrSimulation.updateSignal 1 true (PrSimulation.EdgeDetector_new 3) = Ok e'
    ∧ PrSimulation.m_currentValues e'
      = <[Z.to_nat 1 := true]>
          (PrSimulation.m_currentValues (PrSimulation.EdgeDetector_new 3))
    ∧ PrSimulation.m_lastValues e'
      = PrSimulation.m_lastValues (PrSimulation.EdgeDetector_new 3)
    ∧ PrSimulation.m_edgeCount e'
      = PrSimulation.m_edgeCount (PrSimulation.EdgeDetector_new 3)
    ∧ PrSimulation.m_lastValues (PrSimulation.EdgeDetector_new 3) !! Z.to_nat 1 = Some last
    ∧ PrSimulation.hasRisingEdge 1 e' = Ok (negb last && true, e'')
    ∧ PrSimulation.hasFallingEdge 1 e' = Ok (last && negb true)
    ∧ (negb last && true) && (last && negb true) = false.
Proof.
  destruct (updateSignal_then_edges 1 true (PrSimulation.EdgeDetector_new 3))
    as [_ Hin]; [reflexivity | lia |].
  apply Hin. by vm_compute.
Defined.

(** ** [SignalStats] against [CleanSignalHandler]: the mean *)

Section means.
Import PrSimulation.

Lemma addSamples_state values :
  ∀ s, INT_MIN ≤ m_count s ≤ INT_MAX →
       m_sum (addSamples values s) = foldl PrimFloat.add (m_sum s) values
       ∧ m_count (addSamples values s) = int_wrap (m_count s + Z.of_nat (length values)).
Proof.
  unfold addSamples.
  induction values as [| value values IH]; intros s Hcount; simpl.
  - split; [done |]. rewrite Z.add_0_r. by rewrite int_wrap_small.
  - destruct (IH (addSample value s)) as [-> ->]; simpl; [apply int_wrap_range |].
    split; [done |]. unfold int_succ. rewrite int_wrap_add_l. f_equal. lia.
Qed.

Lemma addSignals_state values :
  ∀ c, CleanSignalHandler.m_signals (addSignals values c)
       = CleanSignalHandler.m_signals c ++ values.
Proof.
  unfold addSignals.
  induction values as [| value values IH]; intros c; simpl.
  - by rewrite app_nil_r.
  - rewrite IH. simpl. by rewrite <- app_assoc.
Qed.

End means.

(** X7. The streaming mean is the batch mean.  After the same samples,
    between 1 and [INT_MAX] of them, [SignalStats::getMean] and
    [CleanSignalHandler::getAverage] return the same double: the samples
    summed from 0 in the order they came, over their number.  With no
    sample they part: [getMean] divides by zero, [getAverage] returns 0. *)
Theorem streaming_mean_is_batch_mean (values : list float) :
  (0 < length values)%nat → Z.of_nat (length values) ≤ INT_MAX →
  PrSimulation.getMean (addSamples values PrSimulation.SignalStats_new)
  = Ok (PrimFloat.div (foldl PrimFloat.add 0%float values)
          (double_of_Z (Z.of_nat (length values))))
  ∧ PrSimulation.CleanSignalHandler.getAverage
      (addSignals values PrSimulation.CleanSignalHandler.new)
    = PrSimulation.getMean (addSamples values PrSimulation.SignalStats_new)
  ∧ PrSimulation.getMean (addSamples [] PrSimulation.SignalStats_new) = Fault DivByZero
  ∧ PrSimulation.CleanSignalHandler.getAverage
      (addSignals [] PrSimulation.CleanSignalHandler.new) = Ok 0%float.
Proof.
  intros Hsome Hmax.
  destruct (addSamples_state values PrSimulation.SignalStats_new) as [Hsum Hcount];
    [by vm_compute |].
  simpl in Hsum, Hcount.
  rewrite int_wrap_small in Hcount by (unfold INT_MIN, INT_MAX in *; lia).
  assert (Hmean : PrSimulation.getMean (addSamples values PrSimulation.SignalStats_new)
                  = Ok (PrimFloat.div (foldl PrimFloat.add 0%float values)
                          (double_of_Z (Z.of_nat (length values))))).
  { unfold PrSimulation.getMean, double_div. rewrite Hsum, Hcount.
    by rewrite (proj2 (Z.eqb_neq _ _)) by lia. }
  split; [done |]. split; [| by split].
  rewrite Hmean. unfold PrSimulation.CleanSignalHandler.getAverage.
  rewrite addSignals_state. simpl.
  rewrite bool_decide_eq_false_2 by (destruct values; [simpl in Hsome; lia | done]).
  rewrite float_range_for_sum. simpl. unfold double_div, vec_size.
  by rewrite (proj2 (Z.eqb_neq _ _)) by lia.
Qed.

Lemma streaming_mean_is_batch_mean_witness :
  PrSimulation.getMean (addSamples [1%float; 2%float] PrSimulation.SignalStats_new)
  = Ok (PrimFloat.div (foldl PrimFloat.add 0%float [1%float; 2%float])
          (double_of_Z (Z.of_nat (length [1%float; 2%float])))).
Proof.
  apply (streaming_mean_is_batch_mean [1%float; 2%float]); [simpl; lia | by vm_compute].
Defined.

(** ** The clean classes: guarded average, exact bounds check *)

(** X8. The classes written as clean examples behave as such.
    [VCleanExample::getAverage] and [CleanSignalHandler::getAverage] return
    a value in every state, 0 when there is no data, and never divide by
    zero; [isValidIndex(idx)] of either class is true exactly when the
    element access at [idx] is inside the vector. *)
Theorem clean_classes_are_guarded :
  (∀ c : VerilatorStyleBugs.VCleanExample.t,
     ∃ average, VerilatorStyleBugs.VCleanExample.getAverage c = Ok average)
  ∧ VerilatorStyleBugs.VCleanExample.getAverage VerilatorStyleBugs.VCleanExample.new
    = Ok 0%float
  ∧ (∀ c : PrSimulation.CleanSignalHandler.t,
       ∃ average, PrSimulation.CleanSignalHandler.getAverage c = Ok average)
  ∧ PrSimulation.CleanSignalHandler.getAverage PrSimulation.CleanSignalHandler.new
    = Ok 0%float
  ∧ (∀ (idx : Z) (c : VerilatorStyleBugs.VCleanExample.t),
       0 ≤ idx →
       VerilatorStyleBugs.VCleanExample.isValidIndex idx c = true
       ↔ ∃ x, vec_get "m_data" (VerilatorStyleBugs.VCleanExample.m_data c) idx = Ok x)
  ∧ (∀ (idx : Z) (c : PrSimulation.CleanSignalHandler.t),
       0 ≤ idx →
       PrSimulation.CleanSignalHandler.isValidIndex idx c = true
       ↔ ∃ x, vec_get "m_signals" (PrSimulation.CleanSignalHandler.m_signals c) idx = Ok x).
Proof.
  assert (Hget : ∀ (A : Type) (buf : string) (v : list A) (idx : Z),
             0 ≤ idx → (idx <? vec_size v) = true ↔ ∃ x, vec_get buf v idx = Ok x).
  { intros A buf v idx Hidx. rewrite Z.ltb_lt. split.
    - intros Hlt. apply vec_get_total. lia.
    - intros [x Hx]. destruct (decide (idx < vec_size v)) as [| Hge]; [done |].
      rewrite vec_get_outside in Hx by lia. discriminate. }
  split; [| split; [done | split; [| split; [done | split]]]].
  - intros c. unfold VerilatorStyleBugs.VCleanExample.getAverage.
    case_bool_decide as Hempty; [by eexists |].
    destruct (for_each_total (λ d sum, Ok (PrimFloat.add sum (double_of_Z d)))
                (VerilatorStyleBugs.VCleanExample.m_data c)) with (s := 0%float)
      as [sum ->]; [by eexists |].
    simpl. unfold double_div, vec_size.
    destruct (VerilatorStyleBugs.VCleanExample.m_data c); [done |]. simpl. by eexists.
  - intros c. unfold PrSimulation.CleanSignalHandler.getAverage.
    case_bool_decide as Hempty; [by eexists |].
    rewrite float_range_for_sum. simpl. unfold double_div, vec_size.
    destruct (PrSimulation.CleanSignalHandler.m_signals c); [done |]. simpl. by eexists.
  - intros idx c. apply Hget.
  - intros idx c. apply Hget.
Qed.

Lemma clean_classes_are_guarded_witness :
  VerilatorStyleBugs.VCleanExample.isValidIndex 1
    (VerilatorStyleBugs.VCleanExample.mk [7; 8]) = true
  ↔ ∃ x, vec_get "m_data"
           (VerilatorStyleBugs.VCleanExample.m_data
              (VerilatorStyleBugs.VCleanExample.mk [7; 8])) 1 = Ok x.
Proof.
  destruct clean_classes_are_guarded as (_ & _ & _ & _ & Hindex & _).
  apply (Hindex 1 (VerilatorStyleBugs.VCleanExample.mk [7; 8])). lia.
Defined.

(** ** module_3.cpp: the connection table *)

(** X9. [getConnection] of an id that was added returns its address and
    leaves the table alone; of an id that was never added it returns the
    empty string and, through [connections[id]], puts an empty entry for
    that id in the table, which grows by one; asked again, it finds that
    entry. *)
Theorem getConnection_makes_entries (id : Z) (addr : string) (nm : Module3.NetworkManager) :
  Module3.getConnection id (Module3.addConnection id addr nm)
  = (addr, Module3.addConnection id addr nm)
  ∧ (Module3.connections nm !! id = None →
     Module3.getConnection id nm = ("", Module3.addConnection id "" nm)
     ∧ size (Module3.connections (Module3.getConnection id nm).2)
       = S (size (Module3.connections nm))
     ∧ Module3.getConnection id (Module3.getConnection id nm).2
       = ("", (Module3.getConnection id nm).2)).
Proof.
  split.
  - unfold Module3.getConnection, Module3.addConnection. simpl.
    by rewrite lookup_insert_eq.
  - intros Hnone. unfold Module3.getConnection, Module3.addConnection.
    rewrite Hnone. simpl. rewrite lookup_insert_eq.
    split; [done | split; [| done]]. by apply map_size_insert_None.
Qed.

Lemma getConnection_makes_entries_witness :
  Module3.getConnection 1 Module3.NetworkManager_new
  = ("", Module3.addConnection 1 "" Module3.NetworkManager_new)
  ∧ size (Module3.connections (Module3.getConnection 1 Module3.NetworkManager_new).2)
    = S (size (Module3.connections Module3.NetworkManager_new))
  ∧ Module3.getConnection 1 (Module3.getConnection 1 Module3.NetworkManager_new).2
    = ("", (Module3.getConnection 1 Module3.NetworkManager_new).2).
Proof.
  destruct (getConnection_makes_entries 1 "" Module3.NetworkManager_new) as [_ Hmissing].
  apply Hmissing. reflexivity.
Defined.

(** ** Counted loops *)

(** [for (int i = k; i < n; i++) s = f(s)] applies [f] once for each value
    of the counter. *)
Lemma for_loop_counted {St} (f : St → St) (n : Z) fuel :
  ∀ (k : nat) (i : Z) s,
    i + Z.of_nat k = n → INT_MIN ≤ i → n ≤ INT_MAX → (k < fuel)%nat →
    for_loop fuel (λ i _, i <? n) int_succ (λ _ s, Ok (f s)) i s = Ok (Nat.iter k f s).
Proof.
  induction fuel as [| fuel IH]; intros k i s Hk Hmin Hmax Hfuel; [lia |].
  destruct k as [| k].
  - simpl. by rewrite (proj2 (Z.ltb_ge _ _)) by lia.
  - rewrite Nat.iter_succ_r. simpl.
    rewrite (proj2 (Z.ltb_lt _ _)) by lia. simpl.
    rewrite int_succ_small by lia.
    by rewrite (IH k) by lia.
Qed.

(** ** module_13.cpp: the counter without a race *)

(** X10. Run by one thread alone, [accessSharedData] adds 1000 to
    [sharedCounter], and two calls in a row add 2000.  (In [int]
    arithmetic; the counter is an [int] and 1001 units of fuel cover the
    loop.) *)
Theorem accessSharedData_adds_1000 (fuel : nat) (sharedCounter : Z) :
  (1000 < fuel)%nat → INT_MIN ≤ sharedCounter ≤ INT_MAX →
  Module13.accessSharedData fuel sharedCounter = Ok (int_wrap (sharedCounter + 1000))
  ∧ (sharedCounter + 2000 ≤ INT_MAX →
     Module13.accessSharedData fuel sharedCounter = Ok (sharedCounter + 1000)
     ∧ (Module13.accessSharedData fuel sharedCounter ≫= Module13.accessSharedData fuel)
       = Ok (sharedCounter + 2000)).
Proof.
  intros Hfuel Hcount.
  assert (Hrun : ∀ c, INT_MIN ≤ c ≤ INT_MAX →
                      Module13.accessSharedData fuel c = Ok (int_wrap (c + 1000))).
  { intros c Hc. unfold Module13.accessSharedData.
    rewrite (for_loop_counted int_succ 1000 fuel 1000%nat)
      by (unfold INT_MIN, INT_MAX; lia).
    by rewrite int_succ_times. }
  split; [by apply Hrun |]. intros Hfits.
  rewrite Hrun by done. rewrite int_wrap_small by lia. split; [done |].
  rewrite bind_Ok, Hrun by lia. f_equal. rewrite int_wrap_small by lia. lia.
Qed.

Lemma accessSharedData_adds_1000_witness :
  Module13.accessSharedData 1001 0 = Ok (int_wrap (0 + 1000)).
Proof.
  destruct (accessSharedData_adds_1000 1001 0) as [Hrun _]; [lia | by vm_compute |].
  exact Hrun.
Defined.

(** ** module_1.cpp: [buildString] and [processVector] *)

Section module_1.
Import Module1.

Lemma concat_from (parts : list string) :
  ∀ result, foldl (λ result part, result +:+ part) result parts
            = result +:+ String.concat "" parts.
Proof.
  induction parts as [| part parts IH]; intros result; simpl.
  - by rewrite string_app_nil_r.
  - rewrite IH. destruct parts as [| part' parts].
    + simpl. by rewrite string_app_nil_r.
    + by rewrite string_app_assoc.
Qed.

Lemma buildString_loop (parts : list string) fuel :
  vec_size parts ≤ INT_MAX →
  ∀ (k : nat) result,
    (k ≤ length parts)%nat → (length parts - k < fuel)%nat →
    for_loop fuel (λ i _, size_of_int i <? vec_size parts) int_succ
      (λ i result, part ← vec_get "parts" parts (size_of_int i); Ok (result +:+ part))
      (Z.of_nat k) result
    = Ok (foldl (λ result part, result +:+ part) result (drop k parts)).
Proof.
  intros Hmax. unfold INT_MAX in Hmax.
  induction fuel as [| fuel IH]; intros k result Hk Hfuel; [lia |]. simpl.
  assert (Hwrap : size_of_int (Z.of_nat k) = Z.of_nat k).
  { apply size_wrap_small. unfold SIZE_MAX, vec_size in *. lia. }
  rewrite Hwrap.
  destruct (decide (k = length parts)) as [-> | Hne].
  - unfold vec_size. rewrite Z.ltb_irrefl, drop_all. done.
  - assert (Hlt : (k < length parts)%nat) by lia.
    destruct (lookup_lt_is_Some_2 parts k Hlt) as [part Hpart].
    unfold vec_size at 1. rewrite (proj2 (Z.ltb_lt _ _)) by lia.
    rewrite (vec_get_inside _ _ _ _ Hpart), (drop_S _ _ _ Hpart). simpl.
    rewrite int_succ_small by (unfold INT_MIN, INT_MAX, vec_size in *; lia).
    replace (Z.of_nat k + 1) with (Z.of_nat (S k)) by lia.
    apply IH; lia.
Qed.

Lemma processVector_loop (v : list Z) (data0 : list Z) (n : Z) fuel :
  vec_size data0 = n → n ≤ SIZE_MAX → (length v ≤ length data0)%nat →
  ∀ (k : nat),
    (k ≤ length v)%nat → (length v - k < fuel)%nat →
    for_loop fuel (λ i _, i <? vec_size v) size_succ
      (λ i p, x ← vec_get "v" v i;
              slot ← size_rem i (size p);
              d ← vec_set "data" (data p) slot (int_mul x 2);
              Ok {| data := d; size := size p |})
      (Z.of_nat k) {| data := (doubled <$> take k v) ++ drop k data0; size := n |}
    = Ok {| data := (doubled <$> v) ++ drop (length v) data0; size := n |}.
Proof.
  intros Hn Hmax Hlen. unfold vec_size in Hn.
  induction fuel as [| fuel IH]; intros k Hk Hfuel; [lia |]. simpl.
  destruct (decide (k = length v)) as [-> | Hne].
  - unfold vec_size. rewrite Z.ltb_irrefl. by rewrite firstn_all.
  - assert (Hlt : (k < length v)%nat) by lia.
    destruct (lookup_lt_is_Some_2 v k Hlt) as [x Hx].
    destruct (lookup_lt_is_Some_2 data0 k) as [y Hy]; [lia |].
    unfold vec_size at 1. rewrite (proj2 (Z.ltb_lt _ _)) by lia.
    rewrite (vec_get_inside _ _ _ _ Hx). simpl.
    unfold size_rem. rewrite (proj2 (Z.eqb_neq _ _)) by lia. simpl.
    rewrite Z.mod_small by lia.
    rewrite vec_set_inside.
    2:{ unfold vec_size. rewrite length_app, length_fmap, length_take, length_drop. lia. }
    simpl. rewrite Nat2Z.id.
    rewrite size_succ_small by lia.
    replace (Z.of_nat k + 1) with (Z.of_nat (S k)) by lia.
    rewrite <- (IH (S k)) by lia. do 3 f_equal.
    rewrite insert_app_r_alt by (rewrite length_fmap, length_take; lia).
    rewrite length_fmap, length_take, Nat.min_l, Nat.sub_diag by lia.
    rewrite (drop_S _ _ _ Hy). simpl.
    rewrite (take_S_r _ _ _ Hx), fmap_app. simpl. by rewrite <- app_assoc.
Qed.

End module_1.

(** X11. [buildString] returns the parts put end to end in their order, the
    empty string for no part.  (At most [INT_MAX] parts, the counter being
    an [int]; the fuel covers the parts.) *)
Theorem buildString_concatenates (parts : list string) (fuel : nat) :
  vec_size parts ≤ INT_MAX → (length parts < fuel)%nat →
  Module1.buildString fuel parts = Ok (String.concat "" parts).
Proof.
  intros Hmax Hfuel. unfold Module1.buildString.
  rewrite (buildString_loop parts fuel Hmax O) by lia.
  by rewrite drop_0, concat_from.
Qed.

Lemma buildString_concatenates_witness :
  Module1.buildString 4 ["ab"; ""; "c"] = Ok (String.concat "" ["ab"; ""; "c"]).
Proof.
  apply (buildString_concatenates ["ab"; ""; "c"] 4); [by vm_compute | simpl; lia].
Defined.

(** X12. [processVector(v)] on a processor of [size] ints, with [v] no
    longer than that: the first ints of [data] become the doubles (in
    [int] arithmetic) of the elements of [v], the others stay, and no
    access leaves [data].  With [size = 0] and a [v] that is not empty, the
    index [i % size] is a division by zero. *)
Theorem processVector_doubles (v : list Z) (p : Module1.DataProcessor) (fuel : nat) :
  vec_size (Module1.data p) = Module1.size p → Module1.size p ≤ SIZE_MAX →
  (length v < fuel)%nat →
  ((length v ≤ length (Module1.data p))%nat →
   Module1.processVector fuel v p
   = Ok {| Module1.data := ((λ x, int_mul x 2) <$> v) ++ drop (length v) (Module1.data p);
           Module1.size := Module1.size p |})
  ∧ (Module1.size p = 0 → v ≠ [] → Module1.processVector fuel v p = Fault DivByZero).
Proof.
  intros Hsize Hmax Hfuel. split.
  - intros Hlen. unfold Module1.processVector.
    pose proof (processVector_loop v (Module1.data p) (Module1.size p) fuel
                  Hsize Hmax Hlen O) as Hloop.
    simpl in Hloop. rewrite drop_0 in Hloop.
    destruct p as [data size]. simpl in *. apply Hloop; lia.
  - intros Hzero Hv. unfold Module1.processVector.
    destruct fuel as [| fuel]; [lia |]. destruct v as [| x v]; [done |].
    simpl. unfold size_rem. by rewrite Hzero.
Qed.

Lemma processVector_doubles_witness :
  Module1.processVector 3 [1; 2] (Module1.mkDataProcessor [7; 8; 9] 3)
  = Ok {| Module1.data := ((λ x, int_mul x 2) <$> [1; 2]) ++ drop (length [1; 2]) [7; 8; 9];
          Module1.size := 3 |}.
Proof.
  destruct (processVector_doubles [1; 2] (Module1.mkDataProcessor [7; 8; 9] 3) 3)
    as [Hdoubles _]; [reflexivity | by vm_compute | simpl; lia |].
  apply Hdoubles. simpl. lia.
Defined.

(** ** before.cpp: what [printResults] writes in general *)

Section before_manager.
Import Before.

Lemma addProcessor_all names :
  ∀ m, processors (foldl (λ m n, addProcessor n m) m names)
       = processors m ++ (DataProcessor_new <$> names).
Proof.
  induction names as [| n names IH]; intros m; simpl.
  - by rewrite app_nil_r.
  - rewrite IH. simpl. by rewrite <- app_assoc.
Qed.

Lemma processData_all values :
  ∀ m, processors (foldl (λ m value, processData value m) m values)
       = (λ p, {| data := data p ++ values; name := name p |}) <$> processors m.
Proof.
  induction values as [| value values IH]; intros m; simpl.
  - rewrite <- (list_fmap_id (processors m)) at 1. apply list_fmap_ext.
    intros _ [d n] _. simpl. by rewrite app_nil_r.
  - rewrite IH. simpl. rewrite <- list_fmap_compose. apply list_fmap_ext.
    intros _ [d n] _. simpl. by rewrite <- app_assoc.
Qed.

Lemma manager_of_processors names values :
  processors (manager_of names values)
  = (λ n, {| data := values; name := n |}) <$> names.
Proof.
  unfold manager_of. rewrite processData_all, addProcessor_all. simpl.
  rewrite <- list_fmap_compose. by apply list_fmap_ext.
Qed.

Lemma printResults_lines values fuel names :
  vec_size values ≤ SIZE_MAX → (length values < fuel)%nat →
  ∀ cout,
    for_each
      (λ proc cout, sum ← getSum fuel proc;
                    Ok (cout +:+ getName proc +:+ ": " +:+ pretty sum +:+ endl))
      ((λ n, {| data := values; name := n |}) <$> names) cout
    = Ok (cout +:+ String.concat "" ((λ n, result_line n (int_sum values)) <$> names)).
Proof.
  intros Hmax Hfuel.
  induction names as [| n names IH]; intros cout; simpl.
  - by rewrite string_app_nil_r.
  - rewrite before_getSum by done. simpl. rewrite IH. f_equal.
    change (cout +:+ n +:+ ": " +:+ pretty (int_sum values) +:+ endl)
      with (cout +:+ result_line n (int_sum values)).
    rewrite string_app_assoc. f_equal.
    destruct names as [| n' names]; simpl; [by rewrite string_app_nil_r | done].
Qed.

End before_manager.

(** X13. In before.cpp, whatever the names and the values: after
    [addProcessor] for every name and then [processData] for every value,
    every processor holds all the values, and [printResults] writes one
    line ["name: sum"] per processor, in the order the processors were
    added, every sum being the sum of the values in [int] arithmetic. *)
Theorem printResults_writes_every_sum (names : list string) (values : list Z)
    (cout : string) (fuel : nat) :
  vec_size values ≤ SIZE_MAX → (length values < fuel)%nat →
  Before.processors (manager_of names values)
  = (λ n, {| Before.data := values; Before.name := n |}) <$> names
  ∧ Before.printResults fuel (manager_of names values) cout
    = Ok (cout +:+ String.concat "" ((λ n, result_line n (int_sum values)) <$> names)).
Proof.
  intros Hmax Hfuel. split; [apply manager_of_processors |].
  unfold Before.printResults. rewrite manager_of_processors.
  by apply printResults_lines.
Qed.

Lemma printResults_writes_every_sum_witness :
  Before.printResults 3 (manager_of ["a"; "b"] [20; 22]) ""
  = Ok ("" +:+ String.concat "" ((λ n, result_line n (int_sum [20; 22])) <$> ["a"; "b"])).
Proof.
  apply (printResults_writes_every_sum ["a"; "b"] [20; 22] "" 3);
    [by vm_compute | simpl; lia].
Defined.

(** ** [SignalBuffer]: what the ring holds *)

Section ring_contents.
Import PrSimulation.

(** Inside the range that [read] supports, its index is the write index
    moved by [offset] around the ring. *)
Lemma read_index_mod offset s :
  buffer_inv s → m_capacity s ≤ 2 ^ 30 →
  - m_capacity s ≤ offset < m_capacity s →
  read_index offset s = (m_writeIndex s + offset) `mod` m_capacity s.
Proof.
  intros (Hsize & Hmax & Hindex) Hsmall Hoffset.
  rewrite read_index_int. cbv zeta.
  rewrite (int_wrap_small (m_writeIndex s)) by (unfold INT_MIN, INT_MAX; lia).
  rewrite (int_wrap_small (m_writeIndex s + offset)) by (unfold INT_MIN, INT_MAX; lia).
  rewrite (int_wrap_small (m_capacity s)) by (unfold INT_MIN, INT_MAX; lia).
  destruct (m_writeIndex s + offset <? 0) eqn:Hneg.
  - apply Z.ltb_lt in Hneg.
    rewrite (int_wrap_small (m_writeIndex s + offset + m_capacity s))
      by (unfold INT_MIN, INT_MAX; lia).
    rewrite Z.geb_leb, (proj2 (Z.leb_gt _ _)) by lia.
    apply (Z.mod_unique_pos _ _ (-1)); lia.
  - apply Z.ltb_ge in Hneg.
    destruct (m_writeIndex s + offset >=? m_capacity s) eqn:Hover;
      rewrite Z.geb_leb in Hover.
    + apply Z.leb_le in Hover.
      rewrite int_wrap_small by (unfold INT_MIN, INT_MAX; lia).
      apply (Z.mod_unique_pos _ _ 1); lia.
    + apply Z.leb_gt in Hover. symmetry. apply Z.mod_small. lia.
Qed.

Lemma read_slot offset s :
  buffer_inv s → m_capacity s ≤ 2 ^ 30 →
  - m_capacity s ≤ offset < m_capacity s →
  read offset s
  = vec_get "m_buffer" (m_buffer s) ((m_writeIndex s + offset) `mod` m_capacity s).
Proof.
  intros Hinv Hsmall Hoffset.
  pose proof (read_index_in_range offset s Hinv Hsmall Hoffset) as Hidx.
  unfold read, size_of_int. destruct Hinv as (Hsize & Hmax & Hindex).
  rewrite size_wrap_small by lia. by rewrite read_index_mod.
Qed.

(** What [write] does to the members. *)
Lemma write_members value s :
  buffer_inv s →
  ∃ s', write value s = Ok s'
        ∧ buffer_inv s'
        ∧ m_capacity s' = m_capacity s
        ∧ m_buffer s' = <[Z.to_nat (m_writeIndex s) := value]> (m_buffer s)
        ∧ m_writeIndex s' = (m_writeIndex s + 1) `mod` m_capacity s
        ∧ m_wrapped s' = (m_wrapped s || bool_decide (m_writeIndex s + 1 = m_capacity s)).
Proof.
  intros (Hsize & Hmax & Hindex). unfold write.
  rewrite vec_set_inside by lia. simpl.
  rewrite size_succ_small by lia.
  destruct (m_writeIndex s + 1 >=? m_capacity s) eqn:Hwrap;
    rewrite Z.geb_leb in Hwrap; eexists; (split; [done |]);
    unfold buffer_inv; simpl; rewrite vec_size_insert.
  - apply Z.leb_le in Hwrap.
    assert (m_writeIndex s + 1 = m_capacity s) as Heq by lia.
    rewrite Heq, Z_mod_same_full, bool_decide_eq_true_2, orb_true_r by done.
    repeat split; lia.
  - apply Z.leb_gt in Hwrap.
    rewrite Z.mod_small, bool_decide_eq_false_2, orb_false_r by lia.
    repeat split; lia.
Qed.

Lemma write_then_read value s s' :
  buffer_inv s → m_capacity s ≤ 2 ^ 30 → write value s = Ok s' →
  read (-1) s' = Ok value
  ∧ ∀ j, 1 ≤ j < m_capacity s → read (- (j + 1)) s' = read (- j) s.
Proof.
  intros Hinv Hsmall Hwrite.
  destruct (write_members value s Hinv)
    as (s1 & Hs1 & Hinv' & Hcap & Hbuf & Hidx & _).
  rewrite Hwrite in Hs1. injection Hs1 as <-.
  pose proof Hinv as (Hsize & Hmax & Hindex).
  assert (Hslot : ∀ j, 0 ≤ j < m_capacity s →
            (m_writeIndex s' + - (j + 1)) `mod` m_capacity s
            = (m_writeIndex s + - j) `mod` m_capacity s).
  { intros j Hj. rewrite Hidx.
    rewrite Zplus_mod_idemp_l. f_equal. lia. }
  split.
  - rewrite read_slot by (done || lia). rewrite Hcap.
    assert (Hlast : (m_writeIndex s' + -1) `mod` m_capacity s = m_writeIndex s).
    { rewrite Hidx, Zplus_mod_idemp_l.
      replace (m_writeIndex s + 1 + -1) with (m_writeIndex s) by lia.
      apply Z.mod_small. lia. }
    rewrite Hlast, Hbuf. rewrite <- (Z2Nat.id (m_writeIndex s)) at 2 by lia.
    apply vec_get_inside, list_lookup_insert_eq. unfold vec_size in Hsize. lia.
  - intros j Hj. rewrite !read_slot by (done || lia). rewrite Hcap.
    rewrite Hslot by lia.
    pose proof (Z.mod_pos_bound (m_writeIndex s + - j) (m_capacity s)) as Hbound.
    assert (Hother : (m_writeIndex s + - j) `mod` m_capacity s ≠ m_writeIndex s).
    { intros Heq.
      assert (Hdiv : (m_capacity s | j)).
      { exists (- ((m_writeIndex s + - j) `div` m_capacity s)).
        pose proof (Z.div_mod (m_writeIndex s + - j) (m_capacity s)). lia. }
      apply Z.divide_pos_le in Hdiv; lia. }
    rewrite Hbuf. unfold vec_get. rewrite vec_size_insert.
    case_bool_decide; [| done].
    rewrite list_lookup_insert_ne by lia. done.
Qed.

(** The members after a run of writes. *)
Lemma writes_members values :
  ∀ s, buffer_inv s →
       ∃ s', for_each write values s = Ok s'
             ∧ buffer_inv s'
             ∧ m_capacity s' = m_capacity s
             ∧ m_writeIndex s'
               = (m_writeIndex s + Z.of_nat (length values)) `mod` m_capacity s
             ∧ m_wrapped s'
               = (m_wrapped s
                  || bool_decide (m_capacity s ≤ m_writeIndex s + Z.of_nat (length values))).
Proof.
  induction values as [| value values IH] using rev_ind; intros s Hinv.
  - exists s. pose proof Hinv as (Hsize & Hmax & Hindex). simpl.
    rewrite Z.add_0_r, Z.mod_small, bool_decide_eq_false_2, orb_false_r by lia. done.
  - destruct (IH s Hinv) as (s1 & Hs1 & Hinv1 & Hcap1 & Hidx1 & Hwrapped1).
    destruct (write_members value s1 Hinv1)
      as (s2 & Hs2 & Hinv2 & Hcap2 & _ & Hidx2 & Hwrapped2).
    exists s2. rewrite for_each_snoc, Hs1, bind_Ok.
    split; [done | split; [done | split; [congruence |]]].
    rewrite length_app. simpl.
    pose proof Hinv as (Hsize & Hmax & Hindex).
    set (n := Z.of_nat (length values)) in *.
    replace (Z.of_nat (length values + 1)) with (n + 1) by (subst n; lia).
    assert (Hn : 0 ≤ n) by (subst n; lia).
    rewrite Hcap1 in *. split.
    + rewrite Hidx2, Hidx1, Zplus_mod_idemp_l. f_equal. lia.
    + rewrite Hwrapped2, Hwrapped1, Hidx1.
      destruct (m_wrapped s); simpl; [done |].
      destruct (decide (m_capacity s ≤ m_writeIndex s + n)) as [Hfull | Hroom].
      * rewrite (bool_decide_eq_true_2 (m_capacity s ≤ m_writeIndex s + n)) by done.
        by rewrite (bool_decide_eq_true_2 (m_capacity s ≤ m_writeIndex s + (n + 1))) by lia.
      * rewrite Z.mod_small by lia.
        rewrite (bool_decide_eq_false_2 (m_capacity s ≤ m_writeIndex s + n)) by done.
        simpl. apply bool_decide_ext. lia.
Qed.

Lemma for_loop_total_below {St} (n : Z) (body : Z → St → outcome St) fuel :
  n ≤ SIZE_MAX →
  (∀ i s, 0 ≤ i < n → ∃ s', body i s = Ok s') →
  ∀ (k : nat) s,
    Z.of_nat k ≤ Z.max 0 n → (Z.to_nat n - k < fuel)%nat →
    ∃ s', for_loop fuel (λ i _, i <? n) size_succ body (Z.of_nat k) s = Ok s'.
Proof.
  intros Hmax Hbody.
  induction fuel as [| fuel IH]; intros k s Hk Hfuel; [lia |]. simpl.
  destruct (Z.of_nat k <? n) eqn:Hlt.
  - apply Z.ltb_lt in Hlt. destruct (Hbody (Z.of_nat k) s) as [s' ->]; [lia |].
    simpl. rewrite size_succ_small by lia.
    replace (Z.of_nat k + 1) with (Z.of_nat (S k)) by lia.
    apply IH; lia.
  - by eexists.
Qed.

End ring_contents.

Section ring_history.
Import PrSimulation.

Lemma writes_then_read values :
  ∀ s, buffer_inv s → m_capacity s ≤ 2 ^ 30 →
       ∃ s', for_each write values s = Ok s'
             ∧ buffer_inv s'
             ∧ m_capacity s' = m_capacity s
             ∧ ∀ (k : nat) value,
                 rev values !! k = Some value → Z.of_nat k < m_capacity s →
                 read (- (Z.of_nat k + 1)) s' = Ok value.
Proof.
  induction values as [| x values IH] using rev_ind; intros s Hinv Hsmall.
  - exists s. split; [done | split; [done | split; [done |]]].
    intros k value Hk. simpl in Hk. by rewrite lookup_nil in Hk.
  - destruct (IH s Hinv Hsmall) as (s1 & Hs1 & Hinv1 & Hcap1 & Hread1).
    destruct (write_members x s1 Hinv1) as (s2 & Hs2 & Hinv2 & Hcap2 & _).
    exists s2. rewrite for_each_snoc, Hs1, bind_Ok.
    split; [done | split; [done | split; [congruence |]]].
    destruct (write_then_read x s1 s2) as [Hlast Hshift]; [done | lia | done |].
    intros k value Hk Hlt. rewrite rev_unit in Hk.
    destruct k as [| k]; simpl in Hk.
    + injection Hk as <-. exact Hlast.
    + replace (Z.of_nat (S k) + 1) with (Z.of_nat k + 1 + 1) by lia.
      rewrite Hshift by lia. apply Hread1; [done | lia].
Qed.

End ring_history.

(** X14. The ring keeps the latest samples, the newest at offset -1.  On a
    new [SignalBuffer] of capacity [c], [0 < c <= 2^30], after any run of
    [write] calls, [read(-1)] returns the value written last, [read(-2)]
    the one before, and so on back to the [c]-th latest; older values are
    gone. *)
Theorem read_returns_latest_samples (c : Z) (values : list float) :
  0 < c ≤ 2 ^ 30 →
  ∃ s, for_each PrSimulation.write values (PrSimulation.SignalBuffer_new c) = Ok s
       ∧ ∀ (k : nat) (value : float),
           rev values !! k = Some value → Z.of_nat k < c →
           PrSimulation.read (- (Z.of_nat k + 1)) s = Ok value.
Proof.
  intros Hc.
  destruct (writes_then_read values (PrSimulation.SignalBuffer_new c))
    as (s & Hs & _ & _ & Hread).
  - apply buffer_inv_new. unfold SIZE_MAX. lia.
  - simpl. lia.
  - exists s. split; [done |]. intros k value Hk Hlt. apply Hread; [done |]. simpl. lia.
Qed.

Lemma read_returns_latest_samples_witness :
  ∃ s, for_each PrSimulation.write [1%float; 2%float; 3%float]
         (PrSimulation.SignalBuffer_new 2) = Ok s
       ∧ ∀ (k : nat) (value : float),
           rev [1%float; 2%float; 3%float] !! k = Some value → Z.of_nat k < 2 →
           PrSimulation.read (- (Z.of_nat k + 1)) s = Ok value.
Proof. apply (read_returns_latest_samples 2 [1%float; 2%float; 3%float]). lia. Defined.

(** X15. On a new [SignalBuffer] of capacity [c > 0], after [n] calls of
    [write] the write index is [n mod c], and [m_wrapped] is set exactly
    when [n >= c]; every write is inside the buffer. *)
Theorem write_index_goes_round (c : Z) (values : list float) :
  0 < c ≤ SIZE_MAX →
  ∃ s, for_each PrSimulation.write values (PrSimulation.SignalBuffer_new c) = Ok s
       ∧ PrSimulation.m_writeIndex s = Z.of_nat (length values) `mod` c
       ∧ PrSimulation.m_wrapped s = bool_decide (c ≤ Z.of_nat (length values))
       ∧ vec_size (PrSimulation.m_buffer s) = c.
Proof.
  intros Hc.
  destruct (writes_members values (PrSimulation.SignalBuffer_new c))
    as (s & Hs & Hinv & Hcap & Hidx & Hwrapped); [by apply buffer_inv_new |].
  exists s. simpl in *. split; [done |]. split; [done |]. split; [done |].
  destruct Hinv as (Hsize & _). congruence.
Qed.

Lemma write_index_goes_round_witness :
  ∃ s, for_each PrSimulation.write [1%float; 2%float; 3%float]
         (PrSimulation.SignalBuffer_new 2) = Ok s
       ∧ PrSimulation.m_writeIndex s = Z.of_nat (length [1%float; 2%float; 3%float]) `mod` 2
       ∧ PrSimulation.m_wrapped s
         = bool_decide (2 ≤ Z.of_nat (length [1%float; 2%float; 3%float]))
       ∧ vec_size (PrSimulation.m_buffer s) = 2.
Proof.
  apply (write_index_goes_round 2 [1%float; 2%float; 3%float]). by vm_compute.
Defined.

(** X16. [getMovingAverage]: a window of 0 divides by zero; a window larger
    than the capacity is cut to the capacity; and for a window of at least
    1 on a buffer of capacity at most [2^30] every read is inside the
    buffer and a value is returned.  The window starts at offset 0, the
    slot that the next [write] fills, not at the latest sample: for a
    window of 1 the result is that slot's value (added to 0, over 1). *)
Theorem getMovingAverage_windows (fuel : nat) (windowSize : Z) (s : PrSimulation.SignalBuffer) :
  buffer_inv s → 0 ≤ windowSize ≤ SIZE_MAX →
  (Z.to_nat (Z.min windowSize (PrSimulation.m_capacity s)) < fuel)%nat →
  (windowSize = 0 → PrSimulation.getMovingAverage fuel windowSize s = Fault DivByZero)
  ∧ (PrSimulation.m_capacity s < windowSize →
     PrSimulation.getMovingAverage fuel windowSize s
     = PrSimulation.getMovingAverage fuel (PrSimulation.m_capacity s) s)
  ∧ (1 ≤ windowSize → PrSimulation.m_capacity s ≤ 2 ^ 30 →
     ∃ average, PrSimulation.getMovingAverage fuel windowSize s = Ok average)
  ∧ (windowSize = 1 → PrSimulation.m_capacity s ≤ 2 ^ 30 →
     ∃ x, vec_get "m_buffer" (PrSimulation.m_buffer s) (PrSimulation.m_writeIndex s) = Ok x
          ∧ PrSimulation.getMovingAverage fuel windowSize s
            = Ok (PrimFloat.div (PrimFloat.add 0%float x) (double_of_Z 1))).
Proof.
  intros Hinv Hwindow Hfuel. pose proof Hinv as (Hsize & Hmax & Hindex).
  split; [| split; [| split]].
  - intros ->. unfold PrSimulation.getMovingAverage.
    rewrite Z.gtb_ltb, (proj2 (Z.ltb_ge _ _)) by lia.
    destruct fuel as [| fuel]; [lia |]. done.
  - intros Hlarge. unfold PrSimulation.getMovingAverage.
    rewrite Z.gtb_ltb, (proj2 (Z.ltb_lt _ _)) by done.
    by rewrite Z.gtb_ltb, Z.ltb_irrefl.
  - intros Hsome Hsmall. unfold PrSimulation.getMovingAverage.
    set (window := if windowSize >? PrSimulation.m_capacity s
                   then PrSimulation.m_capacity s else windowSize).
    assert (Hw : window = Z.min windowSize (PrSimulation.m_capacity s)).
    { subst window. rewrite Z.gtb_ltb.
      destruct (PrSimulation.m_capacity s <? windowSize) eqn:Hcmp;
        [apply Z.ltb_lt in Hcmp | apply Z.ltb_ge in Hcmp]; lia. }
    destruct (for_loop_total_below window
                (λ i sum, x ← PrSimulation.read (int_wrap (- int_of_size i)) s;
                          Ok (PrimFloat.add sum x)) fuel)
      with (k := O) (s := 0%float) as [sum Hsum].
    + lia.
    + intros i sum Hi. unfold int_of_size.
      rewrite (int_wrap_small i) by (unfold INT_MIN, INT_MAX; lia).
      rewrite (int_wrap_small (- i)) by (unfold INT_MIN, INT_MAX; lia).
      destruct (read_in_bounds (- i) s) as [x ->]; [done | done | lia |].
      by eexists.
    + lia.
    + lia.
    + change (Z.of_nat 0) with 0 in Hsum. rewrite Hsum. simpl. unfold double_div.
      rewrite (proj2 (Z.eqb_neq _ _)) by lia. by eexists.
  - intros -> Hsmall.
    destruct (vec_get_total "m_buffer" (PrSimulation.m_buffer s) (PrSimulation.m_writeIndex s))
      as [x Hx]; [lia |].
    exists x. split; [done |].
    unfold PrSimulation.getMovingAverage.
    rewrite Z.gtb_ltb, (proj2 (Z.ltb_ge _ _)) by lia.
    destruct fuel as [| [| fuel]]; [lia | lia |]. simpl.
    change (int_wrap (- int_of_size 0)) with 0.
    rewrite read_slot by (done || lia).
    rewrite Z.add_0_r, Z.mod_small by lia. rewrite Hx. done.
Qed.

Lemma getMovingAverage_windows_witness :
  ∃ average,
    PrSimulation.getMovingAverage 4 3 (PrSimulation.SignalBuffer_new 8) = Ok average.
Proof.
  destruct (getMovingAverage_windows 4 3 (PrSimulation.SignalBuffer_new 8))
    as (_ & _ & Hsome & _).
  - apply buffer_inv_new. by vm_compute.
  - by vm_compute.
  - simpl. lia.
  - apply Hsome; [lia | simpl; lia].
Defined.

(** ** [VNumber::setBits] *)

Section set_bits.
Import VerilatorStyleBugs.

Lemma vec_get_lookup {A} buf (v : list A) i x :
  0 ≤ i → v !! Z.to_nat i = Some x → vec_get buf v i = Ok x.
Proof.
  intros Hi Hx. rewrite <- (Z2Nat.id i) by done. by apply vec_get_inside.
Qed.

Lemma uint32_wrap_int_wrap z : uint32_wrap (int_wrap z) = uint32_wrap z.
Proof.
  unfold uint32_wrap, int_wrap. rewrite Zminus_mod_idemp_l. f_equal. lia.
Qed.

(** The mask [1 << k], as the [uint32_t] it is converted to. *)
Lemma mask_bit k : 0 ≤ k < 32 → uint32_wrap (int_shl 1 k) = 2 ^ k.
Proof.
  intros Hk. unfold int_shl. rewrite uint32_wrap_int_wrap.
  rewrite Z.mod_small by lia. rewrite Z.shiftl_1_l.
  unfold uint32_wrap. apply Z.mod_small. split; [lia |].
  apply Z.pow_lt_mono_r; lia.
Qed.

Lemma land_bit value k :
  0 ≤ k → (Z.land value (2 ^ k) =? 0) = negb (Z.testbit value k).
Proof.
  intros Hk. destruct (Z.testbit value k) eqn:Hbit; simpl.
  - apply Z.eqb_neq. intros Hzero.
    assert (Z.testbit (Z.land value (2 ^ k)) k = true) as Hset.
    { by rewrite Z.land_spec, Hbit, Z.pow2_bits_true. }
    rewrite Hzero, Z.bits_0 in Hset. done.
  - apply Z.eqb_eq. apply Z.bits_inj'. intros m Hm.
    rewrite Z.land_spec, Z.bits_0.
    destruct (decide (m = k)) as [-> | Hne].
    + by rewrite Hbit.
    + rewrite Z.pow2_bits_false by lia. apply andb_false_r.
Qed.

(** One pass of the loop body at bit [i]. *)
Lemma setBits_body lsb value i n :
  0 ≤ lsb ≤ i → i - lsb < 32 → i < INT_MAX → i < 32 * vec_size (m_value n) →
  ∃ n',
    (if negb (Z.land value (uint32_wrap (int_shl 1 (int_sub i lsb))) =? 0) then
       word ← int_div i 32;
       bit ← int_rem i 32;
       old ← vec_get "m_value" (m_value n) (size_of_int word);
       v ← vec_set "m_value" (m_value n) (size_of_int word)
             (Z.lor old (uint32_wrap (int_shl 1 bit)));
       Ok {| m_value := v; m_width := m_width n |}
     else Ok n) = Ok n'
    ∧ m_width n' = m_width n
    ∧ length (m_value n') = length (m_value n)
    ∧ ∀ j, 0 ≤ j →
           number_bit (m_value n') j
           = number_bit (m_value n) j || (bool_decide (j = i) && Z.testbit value (i - lsb)).
Proof.
  intros Hi Hcount Hmax Hin. unfold INT_MAX in Hmax.
  unfold int_sub. rewrite int_wrap_small by (unfold INT_MIN, INT_MAX; lia).
  rewrite mask_bit, land_bit, negb_involutive by lia.
  destruct (Z.testbit value (i - lsb)) eqn:Hbit.
  2:{ exists n. repeat split; try done. intros j Hj. by rewrite andb_false_r, orb_false_r. }
  pose proof (Z.div_mod i 32 ltac:(lia)) as Hdm.
  pose proof (Z.mod_pos_bound i 32 ltac:(lia)) as Hbound.
  assert (Hword : 0 ≤ i `div` 32 < vec_size (m_value n)) by lia.
  unfold int_div, int_rem. simpl.
  rewrite Z.quot_div_nonneg, Z.rem_mod_nonneg by lia.
  rewrite int_wrap_small by (unfold INT_MIN, INT_MAX; lia).
  unfold size_of_int. unfold vec_size in Hword.
  rewrite size_wrap_small by (unfold SIZE_MAX; lia).
  destruct (lookup_lt_is_Some_2 (m_value n) (Z.to_nat (i `div` 32))) as [old Hold]; [lia |].
  rewrite (vec_get_lookup _ _ _ _ (proj1 Hword) Hold). simpl.
  rewrite vec_set_inside by (unfold vec_size; lia). simpl.
  rewrite mask_bit by lia.
  eexists. split; [done |]. simpl. split; [done |]. split; [by rewrite length_insert |].
  intros j Hj. rewrite andb_true_r. unfold number_bit.
  pose proof (Z.div_mod j 32 ltac:(lia)) as Hjdm.
  pose proof (Z.mod_pos_bound j 32 ltac:(lia)) as Hjbound.
  destruct (decide (j `div` 32 = i `div` 32)) as [Hsame | Hother].
  - rewrite Hsame, list_lookup_insert_eq, Hold by lia.
    rewrite Z.lor_spec. f_equal.
    case_bool_decide as Hji.
    + subst j. apply Z.pow2_bits_true. lia.
    + apply Z.pow2_bits_false. lia.
  - rewrite list_lookup_insert_ne by (intros Heq; apply Z2Nat.inj in Heq; lia || (apply Z.div_pos; lia)).
    rewrite bool_decide_eq_false_2 by (intros ->; done).
    by rewrite orb_false_r.
Qed.

Lemma setBits_loop lsb msb value fuel :
  0 ≤ lsb → msb - lsb < 32 → msb < INT_MAX →
  ∀ (k : nat) i n,
    i + Z.of_nat k = msb + 1 → lsb ≤ i → (k < fuel)%nat →
    msb < 32 * vec_size (m_value n) →
    ∃ n',
      for_loop fuel (λ i _, i <=? msb) int_succ
        (λ i n,
           if negb (Z.land value (uint32_wrap (int_shl 1 (int_sub i lsb))) =? 0) then
             word ← int_div i 32;
             bit ← int_rem i 32;
             old ← vec_get "m_value" (m_value n) (size_of_int word);
             v ← vec_set "m_value" (m_value n) (size_of_int word)
                   (Z.lor old (uint32_wrap (int_shl 1 bit)));
             Ok {| m_value := v; m_width := m_width n |}
           else Ok n) i n = Ok n'
      ∧ m_width n' = m_width n
      ∧ length (m_value n') = length (m_value n)
      ∧ ∀ j, 0 ≤ j →
             number_bit (m_value n') j
             = number_bit (m_value n) j
               || (bool_decide (i ≤ j ≤ msb) && Z.testbit value (j - lsb)).
Proof.
  intros Hlsb Hcount Hmax.
  induction fuel as [| fuel IH]; intros k i n Hk Hi Hfuel Hin; [lia |].
  cbn [for_loop]. destruct k as [| k].
  - rewrite (proj2 (Z.leb_gt _ _)) by lia. exists n. repeat split; try done.
    intros j Hj. rewrite bool_decide_eq_false_2 by lia. by rewrite orb_false_r.
  - rewrite (proj2 (Z.leb_le _ _)) by lia.
    destruct (setBits_body lsb value i n) as (n1 & -> & Hwidth1 & Hlen1 & Hbits1);
      [lia | lia | lia | lia |].
    rewrite bind_Ok, int_succ_small by (unfold INT_MIN; lia).
    destruct (IH k (i + 1) n1) as (n' & -> & Hwidth & Hlen & Hbits);
      [lia | lia | lia | unfold vec_size in *; rewrite Hlen1; lia |].
    exists n'. split; [done |]. split; [congruence |]. split; [congruence |].
    intros j Hj. rewrite Hbits, Hbits1 by done. rewrite <- orb_assoc. f_equal.
    destruct (decide (j = i)) as [-> | Hne].
    + rewrite bool_decide_eq_true_2 by done.
      rewrite (bool_decide_eq_false_2 (i + 1 ≤ i ≤ msb)) by lia.
      rewrite (bool_decide_eq_true_2 (i ≤ i ≤ msb)) by lia.
      by rewrite orb_false_r.
    + rewrite (bool_decide_eq_false_2 (j = i)) by done. simpl.
      f_equal. apply bool_decide_ext. lia.
Qed.

End set_bits.

(** X17. [setBits(lsb, msb, value)] ors the low bits of [value] into the
    bits [lsb..msb] of the number and changes no other bit: afterwards bit
    [j] of the number is set when it was set before, or when
    [lsb <= j <= msb] and bit [j - lsb] of [value] is set.  It never clears
    a bit.  The range is at most 32 bits wide, starts at 0 or above and
    lies inside the words of the number. *)
Theorem setBits_ors_value (lsb msb value : Z) (n : VerilatorStyleBugs.VNumber) (fuel : nat) :
  0 ≤ lsb ≤ msb → msb - lsb < 32 → msb < INT_MAX →
  msb < 32 * vec_size (VerilatorStyleBugs.m_value n) →
  (Z.to_nat (msb - lsb + 1) < fuel)%nat →
  ∃ n',
    VerilatorStyleBugs.setBits fuel lsb msb value n = Ok n'
    ∧ VerilatorStyleBugs.m_width n' = VerilatorStyleBugs.m_width n
    ∧ length (VerilatorStyleBugs.m_value n') = length (VerilatorStyleBugs.m_value n)
    ∧ ∀ j, 0 ≤ j →
           number_bit (VerilatorStyleBugs.m_value n') j
           = number_bit (VerilatorStyleBugs.m_value n) j
             || (bool_decide (lsb ≤ j ≤ msb) && Z.testbit value (j - lsb)).
Proof.
  intros Hrange Hcount Hmax Hin Hfuel. unfold VerilatorStyleBugs.setBits.
  apply (setBits_loop lsb msb value fuel) with (k := Z.to_nat (msb - lsb + 1)); lia.
Qed.

Lemma setBits_ors_value_witness :
  ∃ n',
    VerilatorStyleBugs.setBits 8 30 35 63 (VerilatorStyleBugs.VNumber_new 64) = Ok n'
    ∧ VerilatorStyleBugs.m_width n'
      = VerilatorStyleBugs.m_width (VerilatorStyleBugs.VNumber_new 64)
    ∧ length (VerilatorStyleBugs.m_value n')
      = length (VerilatorStyleBugs.m_value (VerilatorStyleBugs.VNumber_new 64))
    ∧ ∀ j, 0 ≤ j →
           number_bit (VerilatorStyleBugs.m_value n') j
           = number_bit (VerilatorStyleBugs.m_value (VerilatorStyleBugs.VNumber_new 64)) j
             || (bool_decide (30 ≤ j ≤ 35) && Z.testbit 63 (j - 30)).
Proof.
  apply (setBits_ors_value 30 35 63 (VerilatorStyleBugs.VNumber_new 64) 8);
    [lia | lia | by vm_compute | by vm_compute | simpl; lia].
Defined.

(** ** [VFileReader]: the stream that stays open *)

Section file_reader.
Import VerilatorStyleBugs.

Lemma fread_nothing (count : nat) (text : string) :
  (0 < count)%nat → (String.length (fread count text) =? 0)%nat = bool_decide (text = "").
Proof.
  intros Hcount. unfold fread.
  destruct count as [| count]; [lia |]. by destruct text.
Qed.

Lemma fclose_fopen fs :
  fclose {| fs_files := fs_files fs; fs_open := S (fs_open fs) |} = fs.
Proof. by destruct fs. Qed.

Lemma readFile_cases filename content fs :
  readFile filename content fs
  = match fs_files fs !! filename with
    | None => (false, content, fs)
    | Some text =>
        if bool_decide (text = "")
        then (false, content, {| fs_files := fs_files fs; fs_open := S (fs_open fs) |})
        else (true, fread 4096 text, fs)
    end.
Proof.
  unfold readFile, fopen. destruct (fs_files fs !! filename) as [text |]; [| done].
  rewrite fread_nothing by lia. case_bool_decide; [done |]. by rewrite fclose_fopen.
Qed.

Lemma readFileCorrect_cases filename content fs :
  readFileCorrect filename content fs
  = match fs_files fs !! filename with
    | None => (false, content, fs)
    | Some text =>
        if bool_decide (text = "") then (false, content, fs)
        else (true, fread 4096 text, fs)
    end.
Proof.
  unfold readFileCorrect, fopen. destruct (fs_files fs !! filename) as [text |]; [| done].
  rewrite fread_nothing by lia. case_bool_decide; by rewrite fclose_fopen.
Qed.

End file_reader.

(** X18. [readFile] and [readFileCorrect] give the same answer, and differ
    in the stream they leave behind.  Both return true exactly when the
    file can be opened and is not empty, and then [content] is its first
    4096 bytes; otherwise [content] is untouched.  [readFileCorrect] leaves
    the file system as it found it.  [readFile] leaves one more stream open
    exactly when the file can be opened and is empty, the early return
    that skips [fclose]. *)
Theorem readFile_leaves_stream_open (filename content : string) (fs : FileSystem) :
  (VerilatorStyleBugs.readFile filename content fs).1
  = (VerilatorStyleBugs.readFileCorrect filename content fs).1
  ∧ ((VerilatorStyleBugs.readFileCorrect filename content fs).1
     = match fs_files fs !! filename with
       | Some text =>
           if bool_decide (text = "") then (false, content) else (true, fread 4096 text)
       | None => (false, content)
       end)
  ∧ (VerilatorStyleBugs.readFileCorrect filename content fs).2 = fs
  ∧ fs_files (VerilatorStyleBugs.readFile filename content fs).2 = fs_files fs
  ∧ fs_open (VerilatorStyleBugs.readFile filename content fs).2
    = (if bool_decide (fs_files fs !! filename = Some "")
       then S (fs_open fs) else fs_open fs).
Proof.
  rewrite readFile_cases, readFileCorrect_cases.
  destruct (fs_files fs !! filename) as [text |]; simpl; [| done].
  case_bool_decide as Hempty; simpl.
  - subst text. by rewrite bool_decide_eq_true_2.
  - rewrite bool_decide_eq_false_2 by congruence. done.
Qed.

(** ** after.cpp: the manager on the free store *)

Section free_store.
Import After.

Lemma mem_bind_Ok {A B} (k : A → mem_outcome B) (a : A) : (MemOk a ≫= k) = k a.
Proof. reflexivity. Qed.

Lemma manages_new (h : Heap) : manages (objects h) [] DataManager_new h.
Proof.
  unfold manages. simpl. split; [constructor |]. split; [constructor |].
  split; [| done]. intros proc Hproc. by apply elem_of_nil in Hproc.
Qed.

Lemma manages_alive base ps m h proc :
  manages base ps m h → proc ∈ processors m → is_Some (objects h !! proc).
Proof.
  intros (_ & Hps & _) Hproc.
  apply list_elem_of_lookup in Hproc as [i Hi].
  destruct (Forall2_lookup_l _ _ _ _ _ Hps Hi) as (p & _ & Hp). by exists p.
Qed.

Lemma manages_addProcessor base ps m h n :
  manages base ps m h →
  manages base (ps ++ [DataProcessor_new n]) (addProcessor n m h).1 (addProcessor n m h).2
  ∧ leaked_ints (addProcessor n m h).2 = leaked_ints h
  ∧ getCurrentProcessor (addProcessor n m h).1 = last (processors (addProcessor n m h).1).
Proof.
  intros Hm. pose proof Hm as (Hdup & Hps & Hbase & Hframe).
  unfold addProcessor, new_DataProcessor. simpl.
  set (proc := fresh (dom (objects h))).
  assert (Hfree : objects h !! proc = None).
  { apply not_elem_of_dom. apply is_fresh. }
  assert (Hnew : proc ∉ processors m).
  { intros Hin. destruct (manages_alive _ _ _ _ _ Hm Hin) as [p Hp]. congruence. }
  split; [| split; [done | by rewrite last_snoc]].
  unfold manages. simpl. split; [| split; [| split]].
  - apply NoDup_app. split; [done |]. split; [| apply NoDup_singleton].
    intros x Hx Hx'. apply list_elem_of_singleton in Hx'. by subst x.
  - apply Forall2_app.
    + eapply Forall2_impl; [exact Hps |].
      intros x p Hp. simpl. rewrite lookup_insert_ne; [done |].
      intros <-. congruence.
    + constructor; [| constructor]. apply lookup_insert_eq.
  - intros x Hx. apply elem_of_app in Hx as [Hx | Hx]; [by apply Hbase |].
    apply list_elem_of_singleton in Hx as ->. by rewrite <- Hframe.
  - intros x Hx. rewrite not_elem_of_app, list_elem_of_singleton in Hx.
    destruct Hx as [Hx Hne]. rewrite lookup_insert_ne by done. by apply Hframe.
Qed.

Lemma deref_alive proc p h : objects h !! proc = Some p → deref proc h = MemOk p.
Proof. intros Hp. unfold deref. by rewrite Hp. Qed.

Lemma alive_elsewhere (objs objs' : gmap nat DataProcessor) procs ps :
  (∀ proc, proc ∈ procs → objs' !! proc = objs !! proc) →
  Forall2 (λ proc p, objs !! proc = Some p) procs ps →
  Forall2 (λ proc p, objs' !! proc = Some p) procs ps.
Proof.
  intros Hsame Hps. induction Hps as [| proc p procs ps Hp Hps IH]; constructor.
  - rewrite Hsame; [done | by left].
  - apply IH. intros x Hx. apply Hsame. by right.
Qed.

(** A loop that follows every pointer of [procs] once and puts [f] of the
    object back. *)
Lemma update_each (f : DataProcessor → DataProcessor) procs :
  ∀ ps h,
    NoDup procs → Forall2 (λ proc p, objects h !! proc = Some p) procs ps →
    ∃ h',
      mem_for_each (λ proc h, p ← deref proc h; MemOk (store proc (f p) h)) procs h
      = MemOk h'
      ∧ leaked_ints h' = leaked_ints h
      ∧ Forall2 (λ proc p, objects h' !! proc = Some p) procs (f <$> ps)
      ∧ ∀ proc, proc ∉ procs → objects h' !! proc = objects h !! proc.
Proof.
  induction procs as [| a procs IH]; intros ps h Hdup Hps.
  - apply Forall2_nil_inv_l in Hps as ->. exists h. simpl.
    repeat split; done.
  - apply Forall2_cons_inv_l in Hps as (p & ps' & Hp & Hps & ->).
    apply NoDup_cons in Hdup as [Ha Hdup].
    simpl. rewrite (deref_alive _ _ _ Hp), mem_bind_Ok, mem_bind_Ok.
    destruct (IH ps' (store a (f p) h) Hdup) as (h' & -> & Hleak & Hps' & Hframe).
    { eapply alive_elsewhere; [| exact Hps]. intros x Hx. simpl.
      apply lookup_insert_ne. by intros <-. }
    exists h'. split; [done |]. split; [done |]. split.
    + simpl. constructor; [| done]. rewrite Hframe by done. simpl.
      apply lookup_insert_eq.
    + intros x Hx. apply not_elem_of_cons in Hx as [Hne Hx].
      rewrite Hframe by done. simpl. by rewrite lookup_insert_ne.
Qed.

Lemma manages_processData base ps m h value :
  manages base ps m h →
  ∃ h', processData value m h = MemOk h'
        ∧ manages base (addData value <$> ps) m h'
        ∧ leaked_ints h' = leaked_ints h.
Proof.
  intros (Hdup & Hps & Hbase & Hframe). unfold processData.
  destruct (update_each (addData value) (processors m) ps h Hdup Hps)
    as (h' & -> & Hleak & Hps' & Hframe').
  exists h'. split; [done |]. split; [| done].
  split; [done |]. split; [done |]. split; [done |].
  intros proc Hproc. rewrite Hframe' by done. by apply Hframe.
Qed.

Lemma manages_process_all values :
  ∀ base ps m h,
    manages base ps m h →
    ∃ h', after_process_all values m h = MemOk h'
          ∧ manages base ((λ p, foldl (λ p value, addData value p) p values) <$> ps) m h'
          ∧ leaked_ints h' = leaked_ints h.
Proof.
  unfold after_process_all.
  induction values as [| value values IH]; intros base ps m h Hm; simpl.
  - exists h. split; [done |]. split; [| done]. by rewrite list_fmap_id.
  - destruct (manages_processData base ps m h value Hm) as (h1 & -> & Hm1 & Hleak1).
    rewrite mem_bind_Ok.
    destruct (IH base _ m h1 Hm1) as (h' & -> & Hm' & Hleak').
    exists h'. split; [done |]. split; [| congruence].
    by rewrite <- list_fmap_compose in Hm'.
Qed.

Lemma manages_add_all names :
  ∀ base ps m h,
    manages base ps m h →
    manages base (ps ++ (DataProcessor_new <$> names))
      (after_add_all names m h).1 (after_add_all names m h).2
    ∧ leaked_ints (after_add_all names m h).2 = leaked_ints h
    ∧ length (processors (after_add_all names m h).1)
      = (length (processors m) + length names)%nat.
Proof.
  unfold after_add_all.
  induction names as [| n names IH]; intros base ps m h Hm; simpl.
  - rewrite app_nil_r. split; [done |]. split; [done | lia].
  - destruct (manages_addProcessor base ps m h n Hm) as (Hm1 & Hleak1 & _).
    destruct (addProcessor n m h) as [m1 h1] eqn:Hadd. simpl in *.
    destruct (IH base _ m1 h1 Hm1) as (Hm' & Hleak' & Hlen').
    rewrite <- app_assoc in Hm'. split; [done |]. split; [congruence |].
    rewrite Hlen'. unfold addProcessor, new_DataProcessor in Hadd.
    injection Hadd as <- _. simpl. rewrite length_app. simpl. lia.
Qed.

(** The loop of [printResults] over objects whose cache, if filled, is
    fresh. *)
Lemma print_each fuel procs :
  ∀ ps cout h,
    NoDup procs → Forall2 (λ proc p, objects h !! proc = Some p) procs ps →
    Forall (λ p, cache_fresh p ∧ vec_size (data p) ≤ SIZE_MAX
                 ∧ (length (data p) < fuel)%nat) ps →
    ∃ h',
      mem_for_each
        (λ proc '(cout, h),
           p ← deref proc h;
           let n := getName p in
           '(sum, p) ← mem_lift (getSum fuel p);
           MemOk (cout +:+ n +:+ ": " +:+ pretty sum +:+ endl, store proc p h))
        procs (cout, h)
      = MemOk (foldl (λ cout p, cout +:+ result_line (name p) (int_sum (data p))) cout ps, h')
      ∧ leaked_ints h' = leaked_ints h
      ∧ Forall2 (λ proc p, objects h' !! proc = Some p) procs (cached <$> ps)
      ∧ ∀ proc, proc ∉ procs → objects h' !! proc = objects h !! proc.
Proof.
  induction procs as [| a procs IH]; intros ps cout h Hdup Hps Hfresh.
  - apply Forall2_nil_inv_l in Hps as ->. exists h. simpl. repeat split; done.
  - apply Forall2_cons_inv_l in Hps as (p & ps' & Hp & Hps & ->).
    apply NoDup_cons in Hdup as [Ha Hdup].
    apply Forall_cons in Hfresh as [(Hp_fresh & Hp_max & Hp_fuel) Hfresh].
    simpl. rewrite (deref_alive _ _ _ Hp), mem_bind_Ok.
    rewrite after_getSum by done. simpl.
    destruct (IH ps' (cout +:+ getName p +:+ ": " +:+ pretty (int_sum (data p)) +:+ endl)
                (store a (cached p) h) Hdup)
      as (h' & Hrun & Hleak & Hps' & Hframe); [| done |].
    { eapply alive_elsewhere; [| exact Hps]. intros x Hx. simpl.
      apply lookup_insert_ne. by intros <-. }
    exists h'. split; [exact Hrun |]. split; [done |]. split.
    + constructor; [| done]. rewrite Hframe by done. simpl. apply lookup_insert_eq.
    + intros x Hx. apply not_elem_of_cons in Hx as [Hne Hx].
      rewrite Hframe by done. simpl. by rewrite lookup_insert_ne.
Qed.

Lemma cached_count_cons p ps :
  cached_count (p :: ps)
  = ((match cachedSum p with Some _ => 1 | None => 0 end) + cached_count ps)%nat.
Proof.
  unfold cached_count. rewrite filter_cons.
  destruct (decide (is_Some (cachedSum p))) as [[sum Hsum] | Hnone].
  - by rewrite Hsum.
  - destruct (cachedSum p) as [sum |]; [| done]. exfalso. apply Hnone. by eexists.
Qed.

Lemma delete_alive proc p h :
  objects h !! proc = Some p →
  delete_DataProcessor proc h
  = MemOk {| objects := delete proc (objects h);
             leaked_ints := match cachedSum p with
                            | Some _ => S (leaked_ints h)
                            | None => leaked_ints h
                            end |}.
Proof. intros Hp. unfold delete_DataProcessor. by rewrite (deref_alive _ _ _ Hp). Qed.

Lemma delete_each procs :
  ∀ ps h,
    NoDup procs → Forall2 (λ proc p, objects h !! proc = Some p) procs ps →
    ∃ h',
      mem_for_each delete_DataProcessor procs h = MemOk h'
      ∧ leaked_ints h' = (leaked_ints h + cached_count ps)%nat
      ∧ (∀ proc, proc ∈ procs → objects h' !! proc = None)
      ∧ ∀ proc, proc ∉ procs → objects h' !! proc = objects h !! proc.
Proof.
  induction procs as [| a procs IH]; intros ps h Hdup Hps.
  - apply Forall2_nil_inv_l in Hps as ->. exists h. simpl.
    split; [done |]. split; [unfold cached_count; simpl; lia |].
    split; [| done]. intros proc Hproc. by apply elem_of_nil in Hproc.
  - apply Forall2_cons_inv_l in Hps as (p & ps' & Hp & Hps & ->).
    apply NoDup_cons in Hdup as [Ha Hdup].
    simpl. rewrite (delete_alive _ _ _ Hp), mem_bind_Ok.
    edestruct (IH ps') as (h' & -> & Hleak & Hgone & Hframe); [done | |].
    { eapply alive_elsewhere; [| exact Hps]. intros x Hx. simpl.
      apply lookup_delete_ne. by intros <-. }
    exists h'. split; [done |]. split; [| split].
    + rewrite Hleak, cached_count_cons. simpl. destruct (cachedSum p); lia.
    + intros x Hx. apply elem_of_cons in Hx as [-> | Hx]; [| by apply Hgone].
      rewrite Hframe by done. simpl. apply lookup_delete_eq.
    + intros x Hx. apply not_elem_of_cons in Hx as [Hne Hx].
      rewrite Hframe by done. simpl. by rewrite lookup_delete_ne.
Qed.

End free_store.

Section manager_life.
Import After.

Lemma addData_all_filled values :
  ∀ p, cachedSum p = None →
       foldl (λ p value, addData value p) p values = filled (data p ++ values) (name p).
Proof.
  induction values as [| value values IH]; intros p Hp; simpl.
  - rewrite app_nil_r. destruct p. simpl in *. by subst.
  - rewrite IH.
    + unfold addData. rewrite Hp. simpl. by rewrite <- app_assoc.
    + unfold addData. by rewrite Hp.
Qed.

(** The manager of after.cpp after the processors are added and the
    values processed. *)
Lemma after_manager_state names values h :
  ∃ h2,
    after_process_all values (after_add_all names DataManager_new h).1
      (after_add_all names DataManager_new h).2 = MemOk h2
    ∧ manages (objects h) (filled values <$> names)
        (after_add_all names DataManager_new h).1 h2
    ∧ leaked_ints h2 = leaked_ints h
    ∧ length (processors (after_add_all names DataManager_new h).1) = length names.
Proof.
  destruct (manages_add_all names (objects h) [] DataManager_new h (manages_new h))
    as (Hm1 & Hleak1 & Hlen).
  destruct (after_add_all names DataManager_new h) as [m h1]. simpl in *.
  destruct (manages_process_all values (objects h) _ m h1 Hm1) as (h2 & Hrun & Hm2 & Hleak2).
  exists h2. split; [done |]. split; [| split; [congruence | done]].
  rewrite <- list_fmap_compose in Hm2.
  erewrite list_fmap_ext; [exact Hm2 |].
  intros _ n _. simpl. by rewrite addData_all_filled.
Qed.

Lemma lines_of_filled values names :
  ∀ cout,
    foldl (λ cout p, cout +:+ result_line (name p) (int_sum (data p))) cout
      (filled values <$> names)
    = cout +:+ String.concat "" ((λ n, result_line n (int_sum values)) <$> names).
Proof.
  intros cout. rewrite <- concat_from. by rewrite !foldl_fmap.
Qed.

End manager_life.

(** X19. [getProcessor] returns a pointer to an object that it has
    deleted.  On any free store it returns the address at which it made
    ["TempProcessor"]; its local manager has deleted that object before the
    return, the store being as it was before the call; so following the
    pointer, as [main] does with [temp->getName()], is a use after free. *)
Theorem getProcessor_returns_dangling_pointer (h : After.Heap) :
  ∃ proc,
    After.getProcessor h = MemOk (Some proc, h)
    ∧ After.deref proc h = UseAfterFree proc
    ∧ (After.deref proc h ≫= λ temp, MemOk (After.getName temp)) = UseAfterFree proc.
Proof.
  set (proc := fresh (dom (After.objects h))).
  assert (Hfree : After.objects h !! proc = None).
  { apply not_elem_of_dom. apply is_fresh. }
  exists proc. split; [| unfold After.deref; by rewrite Hfree].
  unfold After.getProcessor, After.addProcessor, After.new_DataProcessor,
    After.delete_DataManager. simpl. fold proc.
  rewrite (delete_alive proc (After.DataProcessor_new "TempProcessor"))
    by (simpl; apply lookup_insert_eq).
  simpl. rewrite delete_insert_id by done. by destruct h.
Qed.

(** X20. The manager of after.cpp prints what the manager of before.cpp
    prints.  After [addProcessor] for every name and [processData] for
    every value, on any free store, [printResults] of after.cpp follows
    live pointers only and writes the same lines as [printResults] of
    before.cpp; the pointer that [getCurrentProcessor] returns is the last
    of [processors]. *)
Theorem after_manager_prints_as_before (names : list string) (values : list Z)
    (cout : string) (h : After.Heap) (fuel : nat) :
  vec_size values ≤ SIZE_MAX → (length values < fuel)%nat →
  ∃ h2 h3 cout',
    after_process_all values (after_add_all names After.DataManager_new h).1
      (after_add_all names After.DataManager_new h).2 = MemOk h2
    ∧ After.printResults fuel (after_add_all names After.DataManager_new h).1 cout h2
      = MemOk (cout', h3)
    ∧ Before.printResults fuel (manager_of names values) cout = Ok cout'
    ∧ After.getCurrentProcessor (after_add_all names After.DataManager_new h).1
      = last (After.processors (after_add_all names After.DataManager_new h).1).
Proof.
  intros Hmax Hfuel.
  destruct (after_manager_state names values h) as (h2 & Hrun & Hm & _ & _).
  destruct Hm as (Hdup & Hps & _ & _).
  destruct (print_each fuel _ (filled values <$> names) cout h2 Hdup Hps)
    as (h3 & Hprint & _).
  { apply Forall_fmap, Forall_forall. intros n _. simpl. split; [done |]. done. }
  exists h2, h3. eexists. split; [done |]. split; [exact Hprint |]. split.
  - unfold Before.printResults.
    rewrite manager_of_processors, printResults_lines by done.
    by rewrite lines_of_filled.
  - unfold after_add_all. destruct names as [| n names] using rev_ind; [done |].
    rewrite foldl_app. simpl.
    unfold After.addProcessor, After.new_DataProcessor. simpl. by rewrite last_snoc.
Qed.

Lemma after_manager_prints_as_before_witness :
  ∃ h2 h3 cout',
    after_process_all [20; 22]
      (after_add_all ["a"; "b"] After.DataManager_new (After.mkHeap ∅ 0)).1
      (after_add_all ["a"; "b"] After.DataManager_new (After.mkHeap ∅ 0)).2 = MemOk h2
    ∧ After.printResults 3
        (after_add_all ["a"; "b"] After.DataManager_new (After.mkHeap ∅ 0)).1 "" h2
      = MemOk (cout', h3)
    ∧ Before.printResults 3 (manager_of ["a"; "b"] [20; 22]) "" = Ok cout'
    ∧ After.getCurrentProcessor
        (after_add_all ["a"; "b"] After.DataManager_new (After.mkHeap ∅ 0)).1
      = last (After.processors
                (after_add_all ["a"; "b"] After.DataManager_new (After.mkHeap ∅ 0)).1).
Proof.
  apply (after_manager_prints_as_before ["a"; "b"] [20; 22] "" (After.mkHeap ∅ 0) 3);
    [by vm_compute | simpl; lia].
Defined.

(** X21. What the destructors of after.cpp give back.  A manager that is
    destroyed after [addProcessor] and [processData] alone returns the free
    store to what it was: every processor is deleted and nothing is lost.
    Once [printResults] has run, every processor holds a cached sum that
    [~DataProcessor] does not delete: destroying the manager deletes the
    processors and loses one [int] for each of them. *)
Theorem manager_destructor_leaks_cached_sums (names : list string) (values : list Z)
    (cout : string) (h : After.Heap) (fuel : nat) :
  vec_size values ≤ SIZE_MAX → (length values < fuel)%nat →
  ∃ h2 h3 cout',
    after_process_all values (after_add_all names After.DataManager_new h).1
      (after_add_all names After.DataManager_new h).2 = MemOk h2
    ∧ After.delete_DataManager (after_add_all names After.DataManager_new h).1 h2 = MemOk h
    ∧ After.printResults fuel (after_add_all names After.DataManager_new h).1 cout h2
      = MemOk (cout', h3)
    ∧ After.delete_DataManager (after_add_all names After.DataManager_new h).1 h3
      = MemOk {| After.objects := After.objects h;
                 After.leaked_ints := After.leaked_ints h + length names |}.
Proof.
  intros Hmax Hfuel.
  destruct (after_manager_state names values h) as (h2 & Hrun & Hm & Hleak2 & _).
  destruct Hm as (Hdup & Hps & Hbase & Hframe).
  destruct (print_each fuel _ (filled values <$> names) cout h2 Hdup Hps)
    as (h3 & Hprint & Hleak3 & Hps3 & Hframe3).
  { apply Forall_fmap, Forall_forall. intros n _. simpl. split; [done |]. done. }
  destruct (delete_each _ _ h2 Hdup Hps) as (h4 & Hdel & Hleak4 & Hgone4 & Hframe4).
  destruct (delete_each _ _ h3 Hdup Hps3) as (h5 & Hdel' & Hleak5 & Hgone5 & Hframe5).
  assert (Hnone : cached_count (filled values <$> names) = O).
  { clear. induction names as [| n names IH]; [done |].
    rewrite fmap_cons, cached_count_cons. simpl. done. }
  assert (Hall : cached_count (cached <$> (filled values <$> names)) = length names).
  { clear. induction names as [| n names IH]; [done |].
    rewrite !fmap_cons, cached_count_cons. simpl. by rewrite IH. }
  exists h2, h3. eexists. split; [done |]. split; [| split; [exact Hprint |]].
  - unfold After.delete_DataManager. rewrite Hdel. f_equal.
    destruct h4 as [objs4 leaked4], h as [objs leaked]. simpl in *. f_equal.
    + apply map_eq. intros proc.
      destruct (decide (proc ∈ After.processors
                                 (after_add_all names After.DataManager_new
                                    {| After.objects := objs; After.leaked_ints := leaked |}).1))
        as [Hin | Hout].
      * by rewrite Hgone4, Hbase.
      * by rewrite Hframe4, Hframe.
    + lia.
  - unfold After.delete_DataManager. rewrite Hdel'. f_equal.
    destruct h5 as [objs5 leaked5]. simpl in *. f_equal.
    + apply map_eq. intros proc.
      destruct (decide (proc ∈ After.processors
                                 (after_add_all names After.DataManager_new h).1))
        as [Hin | Hout].
      * by rewrite Hgone5, Hbase.
      * by rewrite Hframe5, Hframe3, Hframe.
    + lia.
Qed.

Lemma manager_destructor_leaks_cached_sums_witness :
  ∃ h2 h3 cout',
    after_process_all [20; 22]
      (after_add_all ["a"; "b"] After.DataManager_new (After.mkHeap ∅ 0)).1
      (after_add_all ["a"; "b"] After.DataManager_new (After.mkHeap ∅ 0)).2 = MemOk h2
    ∧ After.delete_DataManager
        (after_add_all ["a"; "b"] After.DataManager_new (After.mkHeap ∅ 0)).1 h2
      = MemOk (After.mkHeap ∅ 0)
    ∧ After.printResults 3
        (after_add_all ["a"; "b"] After.DataManager_new (After.mkHeap ∅ 0)).1 "" h2
      = MemOk (cout', h3)
    ∧ After.delete_DataManager
        (after_add_all ["a"; "b"] After.DataManager_new (After.mkHeap ∅ 0)).1 h3
      = MemOk {| After.objects := After.objects (After.mkHeap ∅ 0);
                 After.leaked_ints := After.leaked_ints (After.mkHeap ∅ 0)
                                      + length ["a"; "b"] |}.
Proof.
  apply (manager_destructor_leaks_cached_sums ["a"; "b"] [20; 22] "" (After.mkHeap ∅ 0) 3);
    [by vm_compute | simpl; lia].
Defined.

(** ** [DelayCalculator]: the whole history *)

Section delay_history.
Import PrSimulation.

Lemma addDelays_valid delays :
  ∀ d, signalMap_valid d →
       vec_size (m_delays d) + Z.of_nat (length delays) ≤ INT_MAX + 1 →
       signalMap_valid (addDelays delays d)
       ∧ vec_size (m_delays (addDelays delays d))
         = vec_size (m_delays d) + Z.of_nat (length delays).
Proof.
  unfold addDelays.
  induction delays as [| [signal delay] delays IH]; intros d Hd Hsize; simpl in *.
  - split; [done | lia].
  - destruct (IH (addDelay signal delay d)) as [Hvalid Hlen].
    + apply signalMap_valid_addDelay; [done | lia].
    + unfold addDelay. simpl. rewrite vec_size_snoc. lia.
    + split; [done |]. rewrite Hlen. unfold addDelay. simpl. rewrite vec_size_snoc. lia.
Qed.

Lemma getSignalDelay_kept signal later :
  ∀ d, signalMap_valid d →
       vec_size (m_delays d) + Z.of_nat (length later) ≤ INT_MAX + 1 →
       signal ∉ later.*1 →
       getSignalDelay signal (addDelays later d) = getSignalDelay signal d.
Proof.
  unfold addDelays.
  induction later as [| [other delay] later IH]; intros d Hd Hsize Hnot; simpl in *; [done |].
  apply not_elem_of_cons in Hnot as [Hne Hnot].
  rewrite IH.
  - by apply getSignalDelay_other.
  - apply signalMap_valid_addDelay; [done | lia].
  - unfold addDelay. simpl. rewrite vec_size_snoc. lia.
  - done.
Qed.

End delay_history.

(** X22. On a calculator filled by [addDelay] alone, with at most [INT_MAX]
    delays, [getSignalDelay] never reads outside [m_delays]: for a signal
    that was added it returns the delay given at the last [addDelay] for
    that signal, and for a signal that was never added it returns -1. *)
Theorem getSignalDelay_last_wins (earlier later : list (string * float))
    (signal : string) (delay : float) :
  Z.of_nat (length (earlier ++ (signal, delay) :: later)) ≤ INT_MAX →
  signal ∉ later.*1 →
  PrSimulation.getSignalDelay signal
    (addDelays (earlier ++ (signal, delay) :: later) PrSimulation.DelayCalculator_new)
  = Ok delay
  ∧ PrSimulation.getSignalDelay signal (addDelays later PrSimulation.DelayCalculator_new)
    = Ok (-1)%float.
Proof.
  intros Hsize Hnot. rewrite length_app in Hsize. simpl in Hsize. split.
  - unfold addDelays. rewrite foldl_app. simpl.
    fold (addDelays earlier PrSimulation.DelayCalculator_new).
    destruct (addDelays_valid earlier PrSimulation.DelayCalculator_new signalMap_valid_new)
      as [Hvalid Hlen]; [unfold vec_size; simpl; lia |].
    unfold vec_size in Hlen at 2. simpl in Hlen.
    fold (addDelays later
            (PrSimulation.addDelay signal delay
               (addDelays earlier PrSimulation.DelayCalculator_new))).
    rewrite getSignalDelay_kept.
    + apply getSignalDelay_added. lia.
    + apply signalMap_valid_addDelay; [done | lia].
    + unfold PrSimulation.addDelay. simpl. rewrite vec_size_snoc. lia.
    + done.
  - rewrite getSignalDelay_kept.
    + done.
    + apply signalMap_valid_new.
    + unfold vec_size. simpl. lia.
    + done.
Qed.

Lemma getSignalDelay_last_wins_witness :
  PrSimulation.getSignalDelay "clk"
    (addDelays ([("clk", 1%float)] ++ ("clk", 2%float) :: [("rst", 5%float)])
       PrSimulation.DelayCalculator_new)
  = Ok 2%float
  ∧ PrSimulation.getSignalDelay "clk"
      (addDelays [("rst", 5%float)] PrSimulation.DelayCalculator_new)
    = Ok (-1)%float.
Proof.
  apply (getSignalDelay_last_wins [("clk", 1%float)] [("rst", 5%float)] "clk" 2%float).
  - by vm_compute.
  - apply (bool_decide_unpack _). by vm_compute.
Defined.
